(** * Web Vitals extension: the service worker's badge animation

    A shallow embedding of [src/service_worker.js]: the URL hash
    ([hashCode]), the two badge renderers ([badgeOverallPerf],
    [badgeMetric]), the liveness check ([doesTabExist]) and the
    animation sequencer ([animateBadges]) running on the service
    worker's event loop.

    JavaScript numbers are IEEE 754 binary64 values; metric values and
    thresholds are therefore primitive floats, and [toFixed] is computed
    on the exact value of the float.  The 32-bit operators of [hashCode]
    are written out on [Z]. *)

From Stdlib Require Import ZArith List String Ascii Floats DecimalString Lia.
From stdpp Require Import gmap strings list.
From Stdlib Require DecimalZ DecimalPos DecimalFacts.

Local Open Scope Z_scope.

(* Decimal literals such as 0.1 denote the nearest binary64 value, as
   they do in JavaScript. *)
#[local] Set Warnings "-inexact-float".

(** ** 32-bit integer operators *)

Module Int32.

(** ECMAScript [ToInt32]: reduce modulo [2^32] into [-2^31 .. 2^31-1]. *)
Definition ToInt32 (z : Z) : Z := (z + 2 ^ 31) mod 2 ^ 32 - 2 ^ 31.

(** [a << n]: the left operand is converted with [ToInt32], the shift
    count is taken modulo 32, the result is again a 32-bit integer. *)
Definition shl (a n : Z) : Z := ToInt32 (Z.shiftl (ToInt32 a) (Z.land n 31)).

(** [a & b] on the 32-bit conversions of both operands. *)
Definition and (a b : Z) : Z := Z.land (ToInt32 a) (ToInt32 b).

Definition in_range (z : Z) : Prop := - 2 ^ 31 <= z < 2 ^ 31.

End Int32.

(** ** hashCode (service_worker.js, lines 25-36) *)

(** A JavaScript string is a sequence of UTF-16 code units;
    [charCodeAt] returns the unit as a number between 0 and 65535. *)
Definition code_units (str : list Z) : Prop :=
  Forall (fun c => 0 <= c < 65536) str.

Definition code_units_of (s : string) : list Z :=
  map (fun a => Z.of_N (N_of_ascii a)) (list_ascii_of_string s).

(** [Number.prototype.toString] on an integer: decimal digits, with a
    leading minus sign for a negative value. *)
Definition Number_toString (z : Z) : string :=
  NilZero.string_of_int (Z.to_int z).

(** One iteration of the loop body:
    [hash = (hash << 5) - hash + char; hash = hash & hash]. *)
Definition hashCode_step (hash char : Z) : Z :=
  let hash := Int32.shl hash 5 - hash + char in
  Int32.and hash hash.

Fixpoint hashCode_loop (hash : Z) (str : list Z) : Z :=
  match str with
  | [] => hash
  | char :: rest => hashCode_loop (hashCode_step hash char) rest
  end.

Definition hashCode (str : list Z) : string :=
  let hash := 0 in
  if (Z.of_nat (length str) =? 0) then ""%string
  else Number_toString (hashCode_loop hash str).

(** The hash as the specification words it: [hash = hash*31 + charCode],
    wrapped to a signed 32-bit integer at each step. *)
Definition rolling_hash_step (hash char : Z) : Z :=
  Int32.ToInt32 (hash * 31 + char).

Definition rolling_hash (str : list Z) : Z :=
  fold_left rolling_hash_step str 0.

(** ** Numbers and their display *)

(** Core Web Vitals thresholds (lines 15-18). *)
Definition LCP_THRESHOLD : float := 2500%float.
Definition FID_THRESHOLD : float := 100%float.
Definition INP_THRESHOLD : float := 200%float.
Definition CLS_THRESHOLD : float := 0.1%float.

(** A string handed to the browser.  [Number_text x] stands for the
    string [Number::toString] produces for a value of magnitude at
    least [10^21] (exponent notation); its digits are not computed
    here. *)
Inductive text : Type :=
  | Chars (s : string)
  | Number_text (x : float).

Module ToFixed.

Definition digits (n : Z) : string :=
  NilZero.string_of_uint (N.to_uint (Z.to_N n)).

Fixpoint zeros (k : nat) : string :=
  match k with
  | O => EmptyString
  | S k' => String "0" (zeros k')
  end.

(** Steps 9-10 of [Number.prototype.toFixed]: the digits of [n], padded
    on the left with zeros to [f+1] characters, with a point before the
    last [f] of them. *)
Definition place_point (n : Z) (f : nat) : string :=
  let m := digits n in
  match f with
  | O => m
  | _ =>
      let k := String.length m in
      let m := if (k <=? f)%nat then (zeros (f + 1 - k) ++ m)%string else m in
      let k := String.length m in
      (substring 0 (k - f) m ++ "." ++ substring (k - f) f m)%string
  end.

(** The integer [n] for which [n / scale - m * 2^e] is closest to zero,
    the larger one when two are equally close. *)
Definition nearest (m : positive) (e : Z) (scale : Z) : Z :=
  if 0 <=? e then Z.pos m * 2 ^ e * scale
  else (2 * Z.pos m * scale + 2 ^ (- e)) / (2 * 2 ^ (- e)).

(** [10^21 <= m * 2^e] *)
Definition is_huge (m : positive) (e : Z) : bool :=
  if 0 <=? e then 10 ^ 21 <=? Z.pos m * 2 ^ e
  else 10 ^ 21 * 2 ^ (- e) <=? Z.pos m.

End ToFixed.

(** [x.toFixed(f)] for [0 <= f <= 100]. *)
Definition toFixed (x : float) (f : nat) : text :=
  match Prim2SF x with
  | S754_nan => Chars "NaN"
  | S754_infinity false => Chars "Infinity"
  | S754_infinity true => Chars "-Infinity"
  | S754_zero _ => Chars (ToFixed.place_point 0 f)
  | S754_finite s m e =>
      if ToFixed.is_huge m e then Number_text x
      else
        let n := ToFixed.nearest m e (10 ^ Z.of_nat f) in
        Chars ((if s then "-" else "") ++ ToFixed.place_point n f)
  end.

(** ** The badge renderers *)

(** The three [chrome.action] calls the renderers make. *)
Inductive action_call : Type :=
  | setIcon (path : string) (tabId : Z)
  | setBadgeText (txt : text) (tabId : Z)
  | setBadgeBackgroundColor (color : string) (tabId : Z).

(** [const currentTab = tabid || tabs[0].id]: a tab id of 0 is falsy and
    falls back to the first tab of the query result; reading [.id] of a
    missing first tab throws, which is [None] here. *)
Definition currentTab (tabid : Z) (tabs : list Z) : option Z :=
  if tabid =? 0 then head tabs else Some tabid.

(** The callback [badgeOverallPerf] (lines 85-121) passes to
    [chrome.tabs.query], run on the query result [tabs]: the calls it
    makes, in order, or [None] when it throws before making any. *)
Definition badgeOverallPerf (badgeCategory : string) (tabid : Z)
    (tabs : list Z) : option (list action_call) :=
  match currentTab tabid tabs with
  | None => None
  | Some currentTab =>
      Some
        (if String.eqb badgeCategory "POOR" then
           [ setIcon "../../icons/slow128w.png" currentTab;
             setBadgeText (Chars "") currentTab ]
         else if String.eqb badgeCategory "GOOD" then
           [ setIcon "../../icons/fast128w.png" currentTab ]
         else
           [ setIcon "../../icons/default128w.png" currentTab;
             setBadgeText (Chars "") currentTab ])
  end.

(** The callback of [badgeMetric] (lines 130-209). *)
Definition badgeMetric (metric : string) (value : float) (tabid : Z)
    (tabs : list Z) : option (list action_call) :=
  match currentTab tabid tabs with
  | None => None
  | Some currentTab =>
      let bgColor := "#000"%string in
      if String.eqb metric "cls" && (value <=? CLS_THRESHOLD)%float then Some []
      else if String.eqb metric "lcp" && (value <=? LCP_THRESHOLD)%float then Some []
      else if String.eqb metric "fid" && (value <=? FID_THRESHOLD)%float then Some []
      else
        Some
          (if String.eqb metric "lcp" then
             [ setIcon "../../icons/slow128w-lcp.png" currentTab;
               setBadgeBackgroundColor bgColor currentTab;
               setBadgeText (toFixed (value / 1000)%float 2) currentTab ]
           else if String.eqb metric "cls" then
             [ setIcon "../../icons/slow128w-cls.png" currentTab;
               setBadgeBackgroundColor bgColor currentTab;
               setBadgeText (toFixed value 2) currentTab ]
           else if String.eqb metric "fid" then
             [ setIcon "../../icons/slow128w-fid.png" currentTab;
               setBadgeBackgroundColor bgColor currentTab;
               setBadgeText (toFixed value 2) currentTab ]
           else
             [ setIcon "../../icons/default128w.png" currentTab;
               setBadgeBackgroundColor "" currentTab;
               setBadgeText (Chars "") currentTab ])
  end.

(** What the browser shows for one tab.  [None] is a property the
    extension has not set. *)
Record badge : Type := Badge {
  icon : option string;
  badgeText : option text;
  badgeBackgroundColor : option string
}.

Definition no_badge : badge := Badge None None None.

Definition badge_of (shown : gmap Z badge) (tabId : Z) : badge :=
  default no_badge (shown !! tabId).

Definition perform (shown : gmap Z badge) (c : action_call) : gmap Z badge :=
  match c with
  | setIcon path t =>
      let b := badge_of shown t in
      <[t := Badge (Some path) (badgeText b) (badgeBackgroundColor b)]> shown
  | setBadgeText txt t =>
      let b := badge_of shown t in
      <[t := Badge (icon b) (Some txt) (badgeBackgroundColor b)]> shown
  | setBadgeBackgroundColor color t =>
      let b := badge_of shown t in
      <[t := Badge (icon b) (badgeText b) (Some color)]> shown
  end.

Definition perform_all (shown : gmap Z badge) (cs : list action_call)
    : gmap Z badge :=
  fold_left perform cs shown.

(** ** doesTabExist (lines 225-229) *)

(** [chrome.tabs.get(tabId, callback)]: the callback runs in either
    case, with [chrome.runtime.lastError] set when no tab has that id. *)
Definition chrome_tabs_get (openTabs : gset Z) (tabId : Z) : option string :=
  if decide (tabId ∈ openTabs) then None else Some "No tab with id."%string.

(** The value the promise resolves with: [!chrome.runtime.lastError]. *)
Definition doesTabExist (openTabs : gset Z) (tabId : Z) : bool :=
  match chrome_tabs_get openTabs tabId with
  | Some _ => false
  | None => true
  end.

(** ** The service worker's state *)

(** The message of the content script, as far as [animateBadges] reads
    it: [request.passesAllThresholds] and [request.metrics.m.value]. *)
Record reading : Type := Reading { value : float }.
Record metrics_t : Type := Metrics { lcp : reading; fid : reading; cls : reading }.
Record request_t : Type := Request {
  passesAllThresholds : string;
  metrics : metrics_t
}.

(** Where an invocation of [animateBadges] is suspended: at one of its
    four [await wait(delay)], at [await doesTabExist(tabId)], or not at
    all because it has returned. *)
Inductive point : Type :=
  | at_wait_lcp
  | at_wait_fid
  | at_wait_cls
  | at_wait_loop
  | at_doesTabExist
  | returned.

(** One invocation of [animateBadges]: its arguments, the constant
    [animationId] it took on entry, and where it stands. *)
Record invocation : Type := Invocation {
  inv_request : request_t;
  inv_tabId : Z;
  inv_animationId : N;
  inv_at : point
}.

(** A [chrome.tabs.query] call whose callback has not run yet. *)
Inductive query_callback : Type :=
  | cb_badgeOverallPerf (badgeCategory : string) (tabid : Z)
  | cb_badgeMetric (metric : string) (v : float) (tabid : Z).

Definition run_callback (cb : query_callback) (tabs : list Z)
    : option (list action_call) :=
  match cb with
  | cb_badgeOverallPerf badgeCategory tabid => badgeOverallPerf badgeCategory tabid tabs
  | cb_badgeMetric metric v tabid => badgeMetric metric v tabid tabs
  end.

(** What an invocation does, as the log records it. *)
Inductive effect : Type :=
  | table_set (tabId : Z) (animationId : N)
  | table_get (tabId : Z)
  | call_badgeOverallPerf (badgeCategory : string) (tabId : Z)
  | call_badgeMetric (metric : string) (v : float) (tabId : Z)
  | call_wait (ms : Z)
  | call_doesTabExist (tabId : Z).

(** An entry of the log: an effect of the [i]-th invocation of
    [animateBadges] (invocations are numbered from 0 in the order they
    are entered), or a [chrome.action] call made by a callback. *)
Inductive entry : Type :=
  | by_invocation (i : nat) (e : effect)
  | by_browser (c : action_call).

(** [globalAnimationId] is a JavaScript number, that is a binary64
    value.  It starts at 0 and changes by [globalAnimationId++] only, so
    it is a natural number here, and the addition of doubles is written
    out on natural numbers: the exact sum is rounded to the nearest
    number that has at most 53 significant bits, to the one with the
    even significand when two are equally near.  Up to [2^53] the
    increment is exact; [2^53 + 1] is not a double and rounds back to
    [2^53], where the counter stays. *)
Module Number.

(** The double nearest to the natural number [n] (below [2^1024]). *)
Definition round (n : N) : N :=
  let k := (N.size n - 53)%N in
  if (k =? 0)%N then n
  else
    let q := N.shiftr n k in
    let r := N.land n (N.ones k) in
    let half := N.shiftl 1 (k - 1) in
    let q := if (half <? r)%N || ((half =? r)%N && N.odd q) then (q + 1)%N else q in
    N.shiftl q k.

(** [n + 1] on doubles. *)
Definition increment (n : N) : N := round (n + 1).

End Number.

(** The service worker runs on one event loop.  Between two [await]s
    an invocation runs without interruption; at an [await] it is
    suspended until its timer fires or [chrome.tabs.get] answers, and
    anything may happen in between.  The renderers do their work in the
    callback of [chrome.tabs.query], which the browser runs later: the
    calls are queued here and answered oldest first.

    [trace] is the log of what the invocations and the browser did, for
    the statements below; the code keeps no such log. *)
Record world : Type := World {
  globalAnimationId : N;
  animationsByTabId : gmap Z N;
  invocations : list invocation;     (* in the order they were entered *)
  queries : list query_callback;     (* oldest first *)
  shown : gmap Z badge;              (* what chrome.action shows, per tab *)
  openTabs : gset Z;                 (* the tabs the browser has open *)
  trace : list entry                 (* oldest first *)
}.

Definition init (tabs : gset Z) : world :=
  World 0 ∅ [] [] ∅ tabs [].

Module Upd.

Definition log (i : nat) (e : effect) (w : world) : world :=
  World (globalAnimationId w) (animationsByTabId w) (invocations w)
        (queries w) (shown w) (openTabs w) (trace w ++ [by_invocation i e]).

Definition set_table (tabId : Z) (a : N) (w : world) : world :=
  World (globalAnimationId w) (<[tabId := a]> (animationsByTabId w))
        (invocations w) (queries w) (shown w) (openTabs w) (trace w).

Definition increment (w : world) : world :=
  World (Number.increment (globalAnimationId w)) (animationsByTabId w) (invocations w)
        (queries w) (shown w) (openTabs w) (trace w).

Definition enqueue (cb : query_callback) (w : world) : world :=
  World (globalAnimationId w) (animationsByTabId w) (invocations w)
        (queries w ++ [cb]) (shown w) (openTabs w) (trace w).

Definition enter (inv : invocation) (w : world) : world :=
  World (globalAnimationId w) (animationsByTabId w) (invocations w ++ [inv])
        (queries w) (shown w) (openTabs w) (trace w).

Definition move (i : nat) (inv : invocation) (p : point) (w : world) : world :=
  World (globalAnimationId w) (animationsByTabId w)
        (<[i := Invocation (inv_request inv) (inv_tabId inv)
                           (inv_animationId inv) p]> (invocations w))
        (queries w) (shown w) (openTabs w) (trace w).

Definition set_tabs (tabs : gset Z) (w : world) : world :=
  World (globalAnimationId w) (animationsByTabId w) (invocations w)
        (queries w) (shown w) tabs (trace w).

Definition deliver (cs : list action_call) (w : world) : world :=
  World (globalAnimationId w) (animationsByTabId w) (invocations w)
        (tail (queries w)) (perform_all (shown w) cs) (openTabs w)
        (trace w ++ map by_browser cs).

End Upd.

(** ** animateBadges (lines 231-271) *)

Definition delay : Z := 2000.

(** [animationsByTabId.get(tabId) !== animationId] *)
Definition superseded (w : world) (tabId : Z) (animationId : N) : bool :=
  negb (bool_decide (animationsByTabId w !! tabId = Some animationId)).

(** From the entry of [animateBadges] to its first [await], or to its end
    when the request is not ['POOR'].  [i] is the number under which the
    log and the list of invocations know this invocation. *)
Definition animateBadges (request : request_t) (tabId : Z) (w : world) : world :=
  let i := length (invocations w) in
  let animationId := globalAnimationId w in
  let w := Upd.log i (table_set tabId animationId)
             (Upd.set_table tabId animationId w) in
  let w := Upd.increment w in
  let w := Upd.log i
             (call_badgeOverallPerf (passesAllThresholds request) tabId)
             (Upd.enqueue (cb_badgeOverallPerf (passesAllThresholds request) tabId) w) in
  if String.eqb (passesAllThresholds request) "POOR" then
    let w := Upd.log i (call_wait delay) w in
    Upd.enter (Invocation request tabId animationId at_wait_lcp) w
  else
    Upd.enter (Invocation request tabId animationId returned) w.

(** After one of the first three waits: the generation check, then the
    [badgeMetric] call and the next [await wait(delay)]. *)
Definition metric_step (i : nat) (inv : invocation) (metric : string)
    (v : float) (next : point) (w : world) : world :=
  let tabId := inv_tabId inv in
  let animationId := inv_animationId inv in
  let w := Upd.log i (table_get tabId) w in
  if superseded w tabId animationId then Upd.move i inv returned w
  else
    let w := Upd.log i (call_badgeMetric metric v tabId)
               (Upd.enqueue (cb_badgeMetric metric v tabId) w) in
    let w := Upd.log i (call_wait delay) w in
    Upd.move i inv next w.

(** After the fourth wait: the generation check, then the call of
    [doesTabExist], whose answer is awaited. *)
Definition loop_step (i : nat) (inv : invocation) (w : world) : world :=
  let tabId := inv_tabId inv in
  let animationId := inv_animationId inv in
  let w := Upd.log i (table_get tabId) w in
  if superseded w tabId animationId then Upd.move i inv returned w
  else
    let w := Upd.log i (call_doesTabExist tabId) w in
    Upd.move i inv at_doesTabExist w.

(** The timer of the [i]-th invocation fires. *)
Definition on_timer (i : nat) (w : world) : world :=
  match invocations w !! i with
  | Some inv =>
      let m := metrics (inv_request inv) in
      match inv_at inv with
      | at_wait_lcp => metric_step i inv "lcp" (value (lcp m)) at_wait_fid w
      | at_wait_fid => metric_step i inv "fid" (value (fid m)) at_wait_cls w
      | at_wait_cls => metric_step i inv "cls" (value (cls m)) at_wait_loop w
      | at_wait_loop => loop_step i inv w
      | at_doesTabExist | returned => w
      end
  | None => w
  end.

(** The answer of [chrome.tabs.get] reaches the [i]-th invocation:
    [if (!(await doesTabExist(tabId))) return; animateBadges(request, tabId);] *)
Definition on_tabs_get (i : nat) (w : world) : world :=
  match invocations w !! i with
  | Some inv =>
      match inv_at inv with
      | at_doesTabExist =>
          if negb (doesTabExist (openTabs w) (inv_tabId inv)) then
            Upd.move i inv returned w
          else
            Upd.move i inv returned
              (animateBadges (inv_request inv) (inv_tabId inv) w)
      | _ => w
      end
  | None => w
  end.

(** The oldest pending [chrome.tabs.query] answers with [tabs]. *)
Definition on_tabs_query (tabs : list Z) (w : world) : world :=
  match queries w with
  | [] => w
  | cb :: _ => Upd.deliver (default [] (run_callback cb tabs)) w
  end.

(** What can happen on the event loop.  [message request tabId] is a
    message of the content script of tab [tabId] that carries a
    [passesAllThresholds]: the listener (lines 274-277) calls
    [animateBadges(request, sender.tab.id)]. *)
Inductive event : Type :=
  | message (request : request_t) (tabId : Z)
  | timer (i : nat)
  | tabs_get_reply (i : nat)
  | tabs_query_reply (tabs : list Z)
  | tab_created (tabId : Z)
  | tab_removed (tabId : Z).

Definition step (w : world) (ev : event) : world :=
  match ev with
  | message request tabId => animateBadges request tabId w
  | timer i => on_timer i w
  | tabs_get_reply i => on_tabs_get i w
  | tabs_query_reply tabs => on_tabs_query tabs w
  | tab_created t => Upd.set_tabs ({[t]} ∪ openTabs w) w
  | tab_removed t => Upd.set_tabs (openTabs w ∖ {[t]}) w
  end.

Definition run (evs : list event) (w : world) : world := fold_left step evs w.

(** ** Vocabulary of the statements *)

(** The frame [badgeMetric] draws for a failing metric: its icon, the
    black background, the formatted value. *)
Definition metric_badge (iconPath : string) (txt : text) (t : Z)
    : list action_call :=
  [ setIcon iconPath t;
    setBadgeBackgroundColor "#000" t;
    setBadgeText txt t ].

(** [value > threshold] *)
Definition exceeds (v threshold : float) : bool := (threshold <? v)%float.

(** [n] is the integer nearest to [scale * num / den], the larger one
    when two are equally near: [n - 1/2 <= scale * num / den < n + 1/2],
    with the denominators cleared. *)
Definition nearest_integer (n scale num den : Z) : Prop :=
  (2 * n - 1) * den <= 2 * scale * num < (2 * n + 1) * den.

(** The decimal numeral of [n / 100] with its two decimals: the digits
    of the integer part, a point, the tenths and the hundredths. *)
Definition hundredths (n : Z) : string :=
  (ToFixed.digits (n / 100) ++ "." ++
   ToFixed.digits (n / 10 mod 10) ++ ToFixed.digits (n mod 10))%string.

(** The registrations a log holds: its [animationsByTabId.set] calls,
    as pairs of tab and generation. *)
Definition registration (e : entry) : option (Z * N) :=
  match e with
  | by_invocation _ (table_set tabId a) => Some (tabId, a)
  | _ => None
  end.

Definition registrations (log : list entry) : list (Z * N) :=
  omap registration log.

(** The generations registered for one tab, oldest first. *)
Definition generations_of (tabId : Z) (log : list entry) : list N :=
  snd <$> filter (fun r => r.1 = tabId) (registrations log).

(** The effects of the [i]-th invocation. *)
Definition effect_of (i : nat) (e : entry) : option effect :=
  match e with
  | by_invocation i' eff => if decide (i' = i) then Some eff else None
  | by_browser _ => None
  end.

Definition effects_of (i : nat) (log : list entry) : list effect :=
  omap (effect_of i) log.

(** The calls of the two renderers in a list of effects. *)
Definition is_render (eff : effect) : bool :=
  match eff with
  | call_badgeOverallPerf _ _ | call_badgeMetric _ _ _ => true
  | _ => false
  end.

(** What the counter holds after [k] increments: [k], up to [2^53]. *)
Definition counted (k : nat) : N := N.min (N.of_nat k) (2 ^ 53).

(** What holds of every state the event loop reaches from [init]: the
    counter has counted the invocations, the [i]-th invocation holds
    the generation the counter had after [i] increments, the log
    mentions invocations that were entered only, the [k]-th registration
    registered the generation of the [k]-th invocation, and the table
    holds for every tab the last generation registered for it. *)
Record consistent (w : world) : Prop := Consistent {
  counter_counts : globalAnimationId w = counted (length (invocations w));
  ids_in_order : forall i inv,
      invocations w !! i = Some inv -> inv_animationId inv = counted i;
  tags_entered : forall i e,
      by_invocation i e ∈ trace w -> (i < length (invocations w))%nat;
  registered_in_order : forall k T g,
      registrations (trace w) !! k = Some (T, g) -> g = counted k;
  registered_count :
      length (registrations (trace w)) = length (invocations w);
  table_is_last : forall T,
      animationsByTabId w !! T = last (generations_of T (trace w))
}.

(** ** Sample messages *)

(** A failing page: lcp above its threshold, fid and cls below theirs. *)
Definition slow_page : request_t :=
  Request "POOR" (Metrics (Reading 3000) (Reading 50) (Reading 0.05)).

(** A later failing measurement of the same tab, with another lcp. *)
Definition slower_page : request_t :=
  Request "POOR" (Metrics (Reading 4000) (Reading 50) (Reading 0.05)).

Definition fast_page : request_t :=
  Request "GOOD" (Metrics (Reading 1000) (Reading 50) (Reading 0.05)).

(** Whose effects a step can add to the log: those of the invocation
    entered by this very step, or of one that had not returned. *)
Definition may_act (w : world) (i : nat) : Prop :=
  i = length (invocations w) \/
  exists inv, invocations w !! i = Some inv /\ inv_at inv <> returned.

(** The three metric steps of a cycle: where the invocation waits, the
    metric and value it then passes to [badgeMetric], and where it
    waits next. *)
Definition metric_steps (m : metrics_t) : list (point * string * float * point) :=
  [ (at_wait_lcp, "lcp"%string, value (lcp m), at_wait_fid);
    (at_wait_fid, "fid"%string, value (fid m), at_wait_cls);
    (at_wait_cls, "cls"%string, value (cls m), at_wait_loop) ].

(** The thresholds [badgeMetric] compares the three metrics with. *)
Definition thresholds : list (string * float) :=
  [ ("lcp"%string, LCP_THRESHOLD);
    ("fid"%string, FID_THRESHOLD);
    ("cls"%string, CLS_THRESHOLD) ].

(** The [i]-th invocation runs [request] for tab [T] under generation
    [a], is suspended at [p], and [a] is the current generation of [T]. *)
Definition current_at (w : world) (i : nat) (request : request_t) (T : Z)
    (a : N) (p : point) : Prop :=
  invocations w !! i = Some (Invocation request T a p) /\
  animationsByTabId w !! T = Some a.

(** The part of a log that starts with the first entry of the [i]-th
    invocation: what happened since it registered. *)
Fixpoint since (i : nat) (log : list entry) : list entry :=
  match log with
  | [] => []
  | by_invocation i' eff :: rest =>
      if decide (i' = i) then log else since i rest
  | by_browser _ :: rest => since i rest
  end.

(** The renderer calls of a log, each with the number of the invocation
    that made it. *)
Definition render_call (e : entry) : option (nat * effect) :=
  match e with
  | by_invocation i eff => if is_render eff then Some (i, eff) else None
  | by_browser _ => None
  end.

Definition render_calls (log : list entry) : list (nat * effect) :=
  omap render_call log.

(** ** More vocabulary: the hash as a polynomial *)

(** [hash*31 + c] iterated without any wrapping. *)
Definition polynomial_from (hash : Z) (str : list Z) : Z :=
  fold_left (fun h c => h * 31 + c) str hash.

Definition polynomial (str : list Z) : Z := polynomial_from 0 str.

(** The [k] digits of [n] in base 31, most significant first. *)
Fixpoint base31 (k : nat) (n : Z) : list Z :=
  match k with
  | O => []
  | S k' => base31 k' (n / 31) ++ [n mod 31]
  end.

(** Seven code units that, appended to [prefix], bring the hash to
    [target]. *)
Definition suffix_for (prefix : list Z) (target : Z) : list Z :=
  base31 7 ((target - polynomial prefix * 31 ^ 7) mod 2 ^ 32).

(** Reading a key back as the integer it prints. *)
Definition parse_key (key : string) : option Z :=
  option_map Z.of_int (NilZero.int_of_string key).

(** ** The listeners (lines 38-75 and 273-287) *)

(** A [Tab] of the [chrome.tabs] API, as far as the listeners read it.
    [url] is a string of code units, or absent ([None]) when the
    browser withholds it. *)
Record tab_t : Type := Tab {
  tab_id : Z;
  tab_active : bool;
  tab_url : option (list Z)
}.

(** What [chrome.storage.local] holds under a key: the flag the
    [onUpdated] listener writes, or the metrics the [onMessage] listener
    writes. *)
Inductive stored : Type :=
  | background_flag (loadedInBackground : bool)
  | page_metrics (m : metrics_t).

(** The service worker with its listeners: the sequencer's state, the
    local storage area, the [chrome.scripting.executeScript] requests
    made so far (their target tabs, oldest first) and the responses
    sent to content scripts (the [tabId] of each, oldest first). *)
Record worker : Type := Worker {
  sequencer : world;
  storage_local : gmap string stored;
  executed : list Z;
  responded : list Z
}.

Definition start (tabs : gset Z) : worker := Worker (init tabs) ∅ [] [].

(** How a listener ends. *)
Inductive completion : Type :=
  | completed
  | threw_TypeError.

(** [chrome.storage.local.set({[key]: v})] *)
Definition storage_set (key : string) (v : stored) (wk : worker) : worker :=
  Worker (sequencer wk) (<[key := v]> (storage_local wk)) (executed wk) (responded wk).

(** [getWebVitals] (lines 43-51): one request to inject vitals.js into
    the tab; the callback ignores the result and any error. *)
Definition getWebVitals (tabId : Z) (wk : worker) : worker :=
  Worker (sequencer wk) (storage_local wk) (executed wk ++ [tabId]) (responded wk).

(** [str.startsWith(prefix)] *)
Fixpoint startsWith (str prefix : list Z) : bool :=
  match prefix, str with
  | [], _ => true
  | _ :: _, [] => false
  | p :: prefix', c :: str' => (c =? p) && startsWith str' prefix'
  end.

(** The [chrome.tabs.onUpdated] listener (lines 54-70).  [status] is
    [changeInfo.status], absent on most updates. *)
Definition onUpdated (tabId : Z) (status : option string) (tab : tab_t)
    (wk : worker) : worker * completion :=
  let tabIdKey := Number_toString tabId in
  let wk :=
    if tab_active tab then storage_set tabIdKey (background_flag false) wk
    else storage_set tabIdKey (background_flag true) wk in
  match status with
  | Some s =>
      if String.eqb s "complete" then
        match tab_url tab with
        | None => (wk, threw_TypeError)
        | Some url =>
            if startsWith url (code_units_of "http") && tab_active tab
            then (getWebVitals tabId wk, completed)
            else (wk, completed)
        end
      else (wk, completed)
  | None => (wk, completed)
  end.

(** The [chrome.tabs.onActivated] listener (lines 73-75). *)
Definition onActivated (tabId : Z) (wk : worker) : worker :=
  getWebVitals tabId wk.

(** A message as the [onMessage] listener receives it:
    [passesAllThresholds] may be missing ([undefined]). *)
Record message_t : Type := Message {
  msg_passesAllThresholds : option string;
  msg_metrics : metrics_t
}.

(** [if (sender.tab.url)]: a string is truthy unless it is empty. *)
Definition truthy_url (url : option (list Z)) : option (list Z) :=
  match url with
  | Some (c :: rest) => Some (c :: rest)
  | _ => None
  end.

(** The [chrome.runtime.onMessage] listener (lines 274-287), for a
    message sent from the content script of [tab]. *)
Definition onMessage (msg : message_t) (tab : tab_t) (wk : worker) : worker :=
  match msg_passesAllThresholds msg with
  | None => wk
  | Some verdict =>
      let request := Request verdict (msg_metrics msg) in
      let wk := Worker (animateBadges request (tab_id tab) (sequencer wk))
                       (storage_local wk) (executed wk) (responded wk) in
      let wk :=
        match truthy_url (tab_url tab) with
        | Some url =>
            let key := hashCode url in
            storage_set key (page_metrics (metrics request)) wk
        | None => wk
        end in
      Worker (sequencer wk) (storage_local wk) (executed wk)
             (responded wk ++ [tab_id tab])
  end.

(** ** The options page (src/options/options.js) *)

Module Options.

(** The four checkboxes of the page and its status line. *)
Record page : Type := Page {
  overlay_checked : bool;
  consoleLogging_checked : bool;
  userTiming_checked : bool;
  preferPhoneField_checked : bool;
  status_textContent : string
}.

(** [chrome.storage.sync.set(items)]: the keys of [items] are written,
    the others stay. *)
Definition sync_set (items : list (string * bool)) (sync : gmap string bool)
    : gmap string bool :=
  fold_left (fun s kv => <[kv.1 := kv.2]> s) items sync.

(** [chrome.storage.sync.get(defaults)]: for each key of [defaults] the
    stored value, or the default when the key is not stored. *)
Definition sync_get (defaults : list (string * bool)) (sync : gmap string bool)
    : list (string * bool) :=
  map (fun kv => (kv.1, default kv.2 (sync !! kv.1))) defaults.

(** Reading one property of the object the callback receives. *)
Fixpoint item (key : string) (items : list (string * bool)) : option bool :=
  match items with
  | [] => None
  | (k, v) :: rest => if String.eqb k key then Some v else item key rest
  end.

(** [saveOptions] (lines 11-24), up to the call of [set]. *)
Definition saveOptions (pg : page) (sync : gmap string bool) : gmap string bool :=
  sync_set
    [ ("enableOverlay"%string, overlay_checked pg);
      ("debug"%string, consoleLogging_checked pg);
      ("userTiming"%string, userTiming_checked pg);
      ("preferPhoneField"%string, preferPhoneField_checked pg) ]
    sync.



(** [restoreOptions] (lines 30-42): the [get] with its defaults, and the
    callback that sets the checkboxes; a property the result lacks
    would leave the box as [undefined], which unchecks it. *)
Definition restoreOptions (pg : page) (sync : gmap string bool) : page :=
  let items :=
    sync_get
      [ ("enableOverlay"%string, false);
        ("debug"%string, false);
        ("userTiming"%string, false);
        ("preferPhoneField"%string, false) ]
      sync in
  Page (default false (item "enableOverlay" items))
       (default false (item "debug" items))
       (default false (item "userTiming" items))
       (default false (item "preferPhoneField" items))
       (status_textContent pg).

End Options.

(** ** More vocabulary: schedules of the sequencer *)

(** The events that resume the [i]-th invocation. *)
Definition resumes (i : nat) (ev : event) : bool :=
  match ev with
  | timer j | tabs_get_reply j => Nat.eqb i j
  | _ => false
  end.

(** One uninterrupted cycle of the [i]-th invocation. *)
Definition one_cycle (i : nat) : list event :=
  [timer i; timer i; timer i; timer i; tabs_get_reply i].

(** [k] uninterrupted cycles, each run by the invocation the one before
    it entered. *)
Fixpoint cycles (k : nat) (i : nat) : list event :=
  match k with
  | O => []
  | S k' => one_cycle i ++ cycles k' (S i)
  end.

(** The waits of [animateBadges]. *)
Definition waits : list point :=
  [at_wait_lcp; at_wait_fid; at_wait_cls; at_wait_loop].

(** The tab a [chrome.action] call is made for. *)
Definition call_tab (c : action_call) : Z :=
  match c with
  | setIcon _ t | setBadgeText _ t | setBadgeBackgroundColor _ t => t
  end.

(** What a call changes of the badge it is made for. *)
Definition call_change (c : action_call) (b : badge) : badge :=
  match c with
  | setIcon path _ => Badge (Some path) (badgeText b) (badgeBackgroundColor b)
  | setBadgeText txt _ => Badge (icon b) (Some txt) (badgeBackgroundColor b)
  | setBadgeBackgroundColor color _ => Badge (icon b) (badgeText b) (Some color)
  end.

(** The messages of a list that carry a [passesAllThresholds]. *)
Definition accepted (msgs : list (message_t * tab_t)) : list (message_t * tab_t) :=
  filter (fun mt => is_Some (msg_passesAllThresholds mt.1)) msgs.

(** The listener run on a list of messages, oldest first. *)
Definition onMessages (msgs : list (message_t * tab_t)) (wk : worker) : worker :=
  fold_left (fun wk mt => onMessage mt.1 mt.2 wk) msgs wk.

(** The metrics a message leaves under [key], if it leaves any there:
    it must carry a [passesAllThresholds] and come from a page with a
    non-empty URL whose hash is [key]. *)
Definition leaves_under (key : string) (mt : message_t * tab_t) : option metrics_t :=
  match msg_passesAllThresholds mt.1, truthy_url (tab_url mt.2) with
  | Some _, Some url =>
      if String.eqb (hashCode url) key then Some (msg_metrics mt.1) else None
  | _, _ => None
  end.

(** The last metrics a list of messages leaves under [key]. *)
Definition last_under (key : string) (msgs : list (message_t * tab_t))
    : option metrics_t :=
  last (omap (leaves_under key) msgs).

(** The four keys of the options in [chrome.storage.sync]. *)
Definition option_keys : list string :=
  [ "enableOverlay"%string; "debug"%string; "userTiming"%string;
    "preferPhoneField"%string ].

(** ** More vocabulary: the table and the invocations *)

(** The table holds, for the tab of every invocation, the generation of
    that invocation or a later one. *)
Definition table_covers (w : world) : Prop :=
  forall i inv, invocations w !! i = Some inv ->
    exists g, animationsByTabId w !! inv_tabId inv = Some g /\
              (inv_animationId inv <= g)%N.

(** * Properties *)

(** ** 32-bit arithmetic *)

Section Int32Facts.

Import Int32.

Lemma ToInt32_offset (z : Z) : exists k, ToInt32 z = z + k * 2 ^ 32.
Proof.
  exists (- ((z + 2 ^ 31) / 2 ^ 32)). unfold ToInt32.
  rewrite Z.mod_eq by lia. lia.
Qed.

Lemma ToInt32_congruent (a b k : Z) : a = b + k * 2 ^ 32 -> ToInt32 a = ToInt32 b.
Proof.
  intros ->. unfold ToInt32.
  replace (b + k * 2 ^ 32 + 2 ^ 31) with (b + 2 ^ 31 + k * 2 ^ 32) by lia.
  now rewrite Z_mod_plus_full.
Qed.

Lemma ToInt32_in_range (z : Z) : in_range (ToInt32 z).
Proof.
  unfold in_range, ToInt32.
  pose proof (Z.mod_pos_bound (z + 2 ^ 31) (2 ^ 32)). lia.
Qed.

Lemma ToInt32_fixed (z : Z) : in_range z -> ToInt32 z = z.
Proof.
  unfold in_range, ToInt32. intros H.
  rewrite Z.mod_small by lia. lia.
Qed.

Lemma and_diag (z : Z) : and z z = ToInt32 z.
Proof. unfold and. apply Z.land_diag. Qed.

Lemma shl_5 (z : Z) : shl z 5 = ToInt32 (ToInt32 z * 32).
Proof. unfold shl. change (Z.land 5 31) with 5. now rewrite Z.shiftl_mul_pow2 by lia. Qed.

End Int32Facts.

(** ** hashCode *)

Lemma hashCode_step_rolling (hash char : Z) :
  hashCode_step hash char = rolling_hash_step hash char.
Proof.
  unfold hashCode_step, rolling_hash_step.
  rewrite and_diag, shl_5.
  destruct (ToInt32_offset hash) as [k Hk].
  destruct (ToInt32_offset (Int32.ToInt32 hash * 32)) as [k' Hk'].
  apply ToInt32_congruent with (k := k' + 32 * k). lia.
Qed.

Lemma hashCode_loop_rolling (str : list Z) (hash : Z) :
  hashCode_loop hash str = fold_left rolling_hash_step str hash.
Proof.
  revert hash. induction str as [|char rest IH]; intros hash; simpl.
  - reflexivity.
  - now rewrite IH, hashCode_step_rolling.
Qed.

(** The subtraction and addition of the loop body are carried out on
    doubles; on a 32-bit [hash] and a code unit [char] every
    intermediate value is an integer far below [2^53], so they are
    exact and the body is integer arithmetic. *)
Lemma hashCode_step_exact (hash char : Z) :
  Int32.in_range hash -> 0 <= char < 65536 ->
  - 2 ^ 53 < Int32.shl hash 5 - hash < 2 ^ 53 /\
  - 2 ^ 53 < Int32.shl hash 5 - hash + char < 2 ^ 53 /\
  Int32.in_range (hashCode_step hash char).
Proof.
  intros Hh Hc.
  pose proof (ToInt32_in_range (Z.shiftl (Int32.ToInt32 hash) (Z.land 5 31))) as Hs.
  fold (Int32.shl hash 5) in Hs.
  unfold Int32.in_range in *. repeat split; try lia.
  - unfold hashCode_step. rewrite and_diag. apply ToInt32_in_range.
  - unfold hashCode_step. rewrite and_diag. apply ToInt32_in_range.
Qed.

Lemma hashCode_loop_in_range (str : list Z) (hash : Z) :
  Int32.in_range hash -> Int32.in_range (hashCode_loop hash str).
Proof.
  revert hash. induction str as [|char rest IH]; intros hash Hh; simpl.
  - exact Hh.
  - apply IH. unfold hashCode_step. rewrite and_diag. apply ToInt32_in_range.
Qed.

Lemma code_units_of_string (s : string) : code_units (code_units_of s).
Proof.
  unfold code_units, code_units_of. apply List.Forall_forall. intros c Hin.
  apply in_map_iff in Hin. destruct Hin as (a & <- & _).
  pose proof (N_ascii_bounded a). lia.
Qed.

(** On a string of code units every step of the loop is exact. *)
Lemma hashCode_loop_exact (str : list Z) (hash : Z) :
  code_units str -> Int32.in_range hash ->
  Int32.in_range (hashCode_loop hash str) /\
  Forall (fun char => forall h, Int32.in_range h ->
            - 2 ^ 53 < Int32.shl h 5 - h + char < 2 ^ 53) str.
Proof.
  intros Hstr Hh. split; [now apply hashCode_loop_in_range |].
  unfold code_units in Hstr. rewrite List.Forall_forall in *.
  intros char Hin h Hr. now apply hashCode_step_exact, Hstr.
Qed.

Example hashCode_abc : hashCode (code_units_of "abc") = "96354"%string.
Proof. reflexivity. Qed.

Example hashCode_negative :
  hashCode (code_units_of "https://example.com/") = "-1856498399"%string.
Proof. reflexivity. Qed.

(** Two different strings with one key. *)
Example hashCode_collision :
  code_units_of "Aa" <> code_units_of "BB" /\
  hashCode (code_units_of "Aa") = hashCode (code_units_of "BB").
Proof. split; [discriminate | reflexivity]. Qed.

(** C9: [hashCode] is a function of its argument (equal strings give
    equal keys); the empty string gives the empty key; and for a
    non-empty string the key is the decimal form of the rolling hash
    [hash = hash*31 + charCode] wrapped to a signed 32-bit integer at
    every step. *)
Theorem hashCode_is_rolling_hash (str str' : list Z) :
  (str = str' -> hashCode str = hashCode str') /\
  hashCode [] = ""%string /\
  (str <> [] -> hashCode str = Number_toString (rolling_hash str)).
Proof.
  split; [now intros -> | split; [reflexivity |]].
  intros Hne. unfold hashCode, rolling_hash.
  destruct str as [|char rest]; [congruence |].
  cbn [length]. rewrite Nat2Z.inj_succ.
  destruct (Z.eqb_spec (Z.succ (Z.of_nat (length rest))) 0) as [E|_]; [lia |].
  now rewrite hashCode_loop_rolling.
Qed.

Lemma hashCode_is_rolling_hash_witness :
  hashCode (code_units_of "abc") = hashCode (code_units_of "abc") /\
  hashCode (code_units_of "abc") = Number_toString (rolling_hash (code_units_of "abc")).
Proof.
  destruct (hashCode_is_rolling_hash (code_units_of "abc") (code_units_of "abc"))
    as [Hdet [_ Hroll]].
  split; [apply Hdet; reflexivity | apply Hroll; discriminate].
Defined.

(** ** Comparisons of doubles *)

Lemma SFcompare_antisym (x y : spec_float) :
  SFcompare y x = option_map CompOpp (SFcompare x y).
Proof.
  destruct x as [sx|sx| |sx mx ex], y as [sy|sy| |sy my ey]; simpl;
    try reflexivity;
    try (destruct sx; reflexivity); try (destruct sy; reflexivity);
    try (destruct sx, sy; reflexivity).
  destruct sx, sy; simpl; try reflexivity;
    rewrite (Z.compare_antisym ex ey); destruct (ex ?= ey); simpl;
    try reflexivity; f_equal.
  - f_equal. change (Pos.compare my mx = CompOpp (Pos.compare mx my)).
    apply Pos.compare_antisym.
  - change (Pos.compare my mx = CompOpp (Pos.compare mx my)).
    apply Pos.compare_antisym.
Qed.

Lemma is_nan_Prim2SF (x : float) :
  is_nan x = true <-> SFcompare (Prim2SF x) (Prim2SF x) = None.
Proof.
  unfold is_nan. rewrite FloatAxioms.eqb_spec. unfold SFeqb.
  pose proof (SFcompare_antisym (Prim2SF x) (Prim2SF x)) as H.
  destruct (SFcompare (Prim2SF x) (Prim2SF x)) as [[| |]|]; simpl in *;
    split; intros; congruence.
Qed.

Lemma SFcompare_None (x y : spec_float) :
  SFcompare x y = None <->
  SFcompare x x = None \/ SFcompare y y = None.
Proof.
  destruct x as [sx|sx| |sx mx ex], y as [sy|sy| |sy my ey]; simpl;
    split; intros H; try discriminate; try (destruct H; discriminate);
    try (left; reflexivity); try (right; reflexivity); try reflexivity.
Qed.

(** [v <= t] is false exactly when [v > t] or one of the two is NaN. *)
Lemma leb_false_iff (v t : float) :
  is_nan t = false ->
  (v <=? t)%float = false <-> exceeds v t || is_nan v = true.
Proof.
  intros Ht. unfold exceeds. rewrite FloatAxioms.leb_spec, FloatAxioms.ltb_spec.
  unfold SFleb, SFltb. rewrite (SFcompare_antisym (Prim2SF v) (Prim2SF t)).
  assert (Hnt : SFcompare (Prim2SF t) (Prim2SF t) <> None).
  { intros E. apply is_nan_Prim2SF in E. congruence. }
  destruct (is_nan v) eqn:Hv.
  - apply is_nan_Prim2SF in Hv.
    assert (E : SFcompare (Prim2SF v) (Prim2SF t) = None)
      by (apply SFcompare_None; now left).
    rewrite E. simpl. tauto.
  - assert (Hnv : SFcompare (Prim2SF v) (Prim2SF v) <> None).
    { intros E. apply is_nan_Prim2SF in E. congruence. }
    destruct (SFcompare (Prim2SF v) (Prim2SF t)) as [[| |]|] eqn:E; simpl;
      try (split; congruence).
    apply SFcompare_None in E. tauto.
Qed.

(** ** The metric renderer *)

Lemma perform_all_nil (shown : gmap Z badge) : perform_all shown [] = shown.
Proof. reflexivity. Qed.

(** [badgeMetric] on one of the three metrics, in terms of the guard it
    evaluates. *)
Lemma badgeMetric_guard (metric : string) (v threshold : float)
    (iconPath : string) (txt : text) (tabid : Z) (tabs : list Z) (t : Z) :
  currentTab tabid tabs = Some t ->
  (metric = "lcp"%string /\ threshold = LCP_THRESHOLD /\
   iconPath = "../../icons/slow128w-lcp.png"%string /\
   txt = toFixed (v / 1000)%float 2) \/
  (metric = "fid"%string /\ threshold = FID_THRESHOLD /\
   iconPath = "../../icons/slow128w-fid.png"%string /\ txt = toFixed v 2) \/
  (metric = "cls"%string /\ threshold = CLS_THRESHOLD /\
   iconPath = "../../icons/slow128w-cls.png"%string /\ txt = toFixed v 2) ->
  badgeMetric metric v tabid tabs =
    Some (if (v <=? threshold)%float then [] else metric_badge iconPath txt t).
Proof.
  intros Ht [(-> & -> & -> & ->) | [(-> & -> & -> & ->) | (-> & -> & -> & ->)]];
    unfold badgeMetric, metric_badge; rewrite Ht; cbn [String.eqb Ascii.eqb Bool.eqb andb];
    repeat match goal with |- context [(v <=? ?c)%float] => destruct (v <=? c)%float end;
    reflexivity.
Qed.

Lemma badgeMetric_below (metric : string) (v threshold : float)
    (tabid : Z) (tabs : list Z) (t : Z) :
  currentTab tabid tabs = Some t ->
  (metric, threshold) ∈ thresholds ->
  (v <=? threshold)%float = true ->
  badgeMetric metric v tabid tabs = Some [].
Proof.
  intros Ht Hin Hle.
  unfold thresholds in Hin. rewrite !elem_of_cons, elem_of_nil in Hin.
  destruct Hin as [H | [H | [H | []]]]; inversion H; subst.
  - rewrite (badgeMetric_guard "lcp" v LCP_THRESHOLD _ _ tabid tabs t Ht) by tauto.
    now rewrite Hle.
  - rewrite (badgeMetric_guard "fid" v FID_THRESHOLD _ _ tabid tabs t Ht) by tauto.
    now rewrite Hle.
  - rewrite (badgeMetric_guard "cls" v CLS_THRESHOLD _ _ tabid tabs t Ht) by tauto.
    now rewrite Hle.
Qed.

Lemma badgeMetric_passing (metric : string) (v threshold : float)
    (tabid : Z) (tabs : list Z) :
  (metric, threshold) ∈ thresholds ->
  (v <=? threshold)%float = true ->
  default [] (badgeMetric metric v tabid tabs) = [].
Proof.
  intros Hin Hle.
  destruct (currentTab tabid tabs) as [t|] eqn:Ht.
  - now rewrite (badgeMetric_below metric v threshold tabid tabs t Ht Hin Hle).
  - unfold badgeMetric. now rewrite Ht.
Qed.

(** For a number the guard [value <= threshold] is the negation of
    [value > threshold]. *)
Lemma guard_of_a_number (v threshold : float) :
  is_nan v = false -> is_nan threshold = false ->
  (v <=? threshold)%float = negb (exceeds v threshold).
Proof.
  intros Hv Ht. pose proof (leb_false_iff v threshold Ht) as H.
  rewrite Hv, orb_false_r in H.
  destruct (v <=? threshold)%float, (exceeds v threshold); try reflexivity.
  - destruct H as [_ H]. specialize (H eq_refl). discriminate.
  - destruct H as [H _]. specialize (H eq_refl). discriminate.
Qed.

(** C5: at a metric step the badge of the metric (its icon, the black
    background, the formatted value) is drawn exactly when the value
    strictly exceeds the threshold (lcp 2500, fid 100, cls 0.1); for a
    value at or below the threshold no call is made and what the tab
    shows stays as it was.  The value is a number: the metrics reach
    the worker in a message, and a message carries no NaN. *)
Theorem badgeMetric_draws_iff_exceeds
    (v : float) (tabid : Z) (tabs : list Z) (t : Z) (shown : gmap Z badge) :
  currentTab tabid tabs = Some t ->
  is_nan v = false ->
  badgeMetric "lcp" v tabid tabs =
    Some (if exceeds v LCP_THRESHOLD
          then metric_badge "../../icons/slow128w-lcp.png" (toFixed (v / 1000)%float 2) t
          else []) /\
  badgeMetric "fid" v tabid tabs =
    Some (if exceeds v FID_THRESHOLD
          then metric_badge "../../icons/slow128w-fid.png" (toFixed v 2) t
          else []) /\
  badgeMetric "cls" v tabid tabs =
    Some (if exceeds v CLS_THRESHOLD
          then metric_badge "../../icons/slow128w-cls.png" (toFixed v 2) t
          else []) /\
  (forall metric threshold,
      (metric, threshold) ∈ thresholds ->
      (v <=? threshold)%float = negb (exceeds v threshold) /\
      ((v <=? threshold)%float = true ->
       badgeMetric metric v tabid tabs = Some [] /\
       perform_all shown (default [] (badgeMetric metric v tabid tabs)) = shown)).
Proof.
  intros Ht Hv.
  assert (Hguard : forall (A : Type) threshold (a b : A),
             is_nan threshold = false ->
             (if (v <=? threshold)%float then a else b) =
             (if exceeds v threshold then b else a)).
  { intros A threshold a b Hth. rewrite (guard_of_a_number v threshold Hv Hth).
    now destruct (exceeds v threshold). }
  split; [| split; [| split]].
  - rewrite (badgeMetric_guard "lcp" v LCP_THRESHOLD _ _ tabid tabs t Ht) by tauto.
    f_equal. now apply Hguard.
  - rewrite (badgeMetric_guard "fid" v FID_THRESHOLD _ _ tabid tabs t Ht) by tauto.
    f_equal. now apply Hguard.
  - rewrite (badgeMetric_guard "cls" v CLS_THRESHOLD _ _ tabid tabs t Ht) by tauto.
    f_equal. now apply Hguard.
  - intros metric threshold Hin. split.
    + apply guard_of_a_number; [exact Hv |].
      unfold thresholds in Hin. rewrite !elem_of_cons, elem_of_nil in Hin.
      destruct Hin as [H | [H | [H | []]]]; inversion H; reflexivity.
    + intros Hle.
      rewrite (badgeMetric_below metric v threshold tabid tabs t Ht Hin Hle).
      split; reflexivity.
Qed.

Lemma badgeMetric_draws_iff_exceeds_witness :
  is_nan 3000 = false /\
  badgeMetric "lcp" 3000 7 [] =
    Some (metric_badge "../../icons/slow128w-lcp.png" (Chars "3.00") 7) /\
  badgeMetric "fid" 3000 7 [] =
    Some (metric_badge "../../icons/slow128w-fid.png" (Chars "3000.00") 7) /\
  badgeMetric "cls" 3000 7 [] =
    Some (metric_badge "../../icons/slow128w-cls.png" (Chars "3000.00") 7) /\
  badgeMetric "fid" 50 7 [] = Some [].
Proof.
  destruct (badgeMetric_draws_iff_exceeds 3000 7 [] 7 ∅ eq_refl eq_refl)
    as (Hlcp & Hfid & Hcls & _).
  destruct (badgeMetric_draws_iff_exceeds 50 7 [] 7 ∅ eq_refl eq_refl)
    as (_ & _ & _ & Hbelow).
  split; [reflexivity |].
  split; [exact Hlcp | split; [exact Hfid | split; [exact Hcls |]]].
  apply (Hbelow "fid"%string FID_THRESHOLD); [| reflexivity].
  unfold thresholds. rewrite !elem_of_cons. right. left. reflexivity.
Defined.

(** Not a value a message can carry: every comparison with NaN is
    false, so a direct call with NaN would pass the guard.  (A NaN in
    the data of the content script reaches the worker as [null], for
    which the guard [null <= threshold] holds.) *)
Example badgeMetric_given_NaN :
  exceeds nan LCP_THRESHOLD = false /\
  badgeMetric "lcp" nan 7 [] =
    Some [ setIcon "../../icons/slow128w-lcp.png" 7;
           setBadgeBackgroundColor "#000" 7;
           setBadgeText (Chars "NaN") 7 ].
Proof. split; reflexivity. Qed.

(** ** Badge text *)

Example toFixed_ties_go_up : toFixed 0.125 2 = Chars "0.13".
Proof. reflexivity. Qed.

(** 2505/1000 is the double just below 2.505. *)
Example toFixed_of_the_double : toFixed (2505 / 1000)%float 2 = Chars "2.50".
Proof. reflexivity. Qed.

Example toFixed_negative_zero : toFixed (-0.001)%float 2 = Chars "-0.00".
Proof. reflexivity. Qed.

(** *** Strings of digits *)

Lemma string_append_cons (x : ascii) (a b : string) :
  (String x a ++ b)%string = String x (a ++ b)%string.
Proof. reflexivity. Qed.

Lemma string_append_assoc (a b c : string) :
  ((a ++ b) ++ c = a ++ (b ++ c))%string.
Proof.
  induction a as [|x a IH]; [reflexivity |].
  rewrite !string_append_cons. now rewrite IH.
Qed.

Lemma string_length_append (a b : string) :
  String.length (a ++ b) = (String.length a + String.length b)%nat.
Proof.
  induction a as [|x a IH]; [reflexivity |].
  rewrite string_append_cons. cbn [String.length]. now rewrite IH.
Qed.

Lemma substring_all (a : string) : substring 0 (String.length a) a = a.
Proof. induction a as [|x a IH]; [reflexivity | cbn; now rewrite IH]. Qed.

Lemma substring_prefix (a b : string) :
  substring 0 (String.length a) (a ++ b) = a.
Proof.
  induction a as [|x a IH]; [now destruct b |].
  rewrite string_append_cons. cbn [String.length substring]. now rewrite IH.
Qed.

Lemma substring_suffix (a b : string) :
  substring (String.length a) (String.length b) (a ++ b) = b.
Proof.
  induction a as [|x a IH]; [apply substring_all |].
  rewrite string_append_cons. exact IH.
Qed.

Lemma string_of_revapp (a b : Decimal.uint) :
  NilEmpty.string_of_uint (Decimal.revapp a b) =
  (NilEmpty.string_of_uint (Decimal.revapp a Decimal.Nil) ++
   NilEmpty.string_of_uint b)%string.
Proof.
  revert b.
  induction a as [|a IH|a IH|a IH|a IH|a IH|a IH|a IH|a IH|a IH|a IH];
    intros b; cbn [Decimal.revapp]; try reflexivity;
    rewrite IH; symmetry; rewrite IH; cbn [NilEmpty.string_of_uint];
    rewrite string_append_assoc; reflexivity.
Qed.

Lemma string_of_app (a b : Decimal.uint) :
  NilEmpty.string_of_uint (Decimal.app a b) =
  (NilEmpty.string_of_uint a ++ NilEmpty.string_of_uint b)%string.
Proof.
  unfold Decimal.app. rewrite string_of_revapp. f_equal.
  change (Decimal.revapp (Decimal.rev a) Decimal.Nil)
    with (Decimal.rev (Decimal.rev a)).
  now rewrite DecimalFacts.rev_rev.
Qed.

Lemma string_of_to_uint (n : N) :
  NilZero.string_of_uint (N.to_uint n) = NilEmpty.string_of_uint (N.to_uint n).
Proof.
  destruct n as [|p]; [reflexivity |]. cbn [N.to_uint].
  pose proof (DecimalPos.Unsigned.to_uint_nonnil p) as H.
  now destruct (Pos.to_uint p).
Qed.

Ltac digit_cases d Hd :=
  let H := fresh in
  assert (H : (d = 0 \/ d = 1 \/ d = 2 \/ d = 3 \/ d = 4 \/ d = 5 \/ d = 6 \/
               d = 7 \/ d = 8 \/ d = 9)%N) by lia;
  clear Hd;
  destruct H as [-> | [-> | [-> | [-> | [-> | [-> | [-> | [-> | [-> | ->]]]]]]]]].

(** The digits of [10 * p + d] are the digits of [p] followed by the
    digit [d]. *)
Lemma to_uint_snoc (p : positive) (d : N) :
  (d < 10)%N ->
  N.to_uint (10 * N.pos p + d) = Decimal.app (N.to_uint (N.pos p)) (N.to_uint d).
Proof.
  intros Hd.
  assert (Hlu : forall n, n <> 0%N ->
                  N.to_uint n = Decimal.rev (DecimalPos.Unsigned.to_lu n)).
  { intros [|q] Hq; [congruence | reflexivity]. }
  rewrite Hlu by lia. rewrite (Hlu (N.pos p)) by lia.
  assert (E : DecimalPos.Unsigned.to_lu (10 * N.pos p + d) =
              Decimal.revapp (N.to_uint d) (DecimalPos.Unsigned.to_lu (N.pos p))).
  { pose proof (DecimalPos.Unsigned.to_ldec_tenfold p) as H10.
    digit_cases d Hd.
    - rewrite N.add_0_r. rewrite H10. reflexivity.
    - replace (10 * N.pos p + 1)%N with (N.succ (10 * N.pos p)) by lia.
      rewrite !DecimalPos.Unsigned.to_lu_succ, H10. reflexivity.
    - replace (10 * N.pos p + 2)%N with (N.succ (N.succ (10 * N.pos p))) by lia.
      rewrite !DecimalPos.Unsigned.to_lu_succ, H10. reflexivity.
    - replace (10 * N.pos p + 3)%N
        with (N.succ (N.succ (N.succ (10 * N.pos p)))) by lia.
      rewrite !DecimalPos.Unsigned.to_lu_succ, H10. reflexivity.
    - replace (10 * N.pos p + 4)%N
        with (N.succ (N.succ (N.succ (N.succ (10 * N.pos p))))) by lia.
      rewrite !DecimalPos.Unsigned.to_lu_succ, H10. reflexivity.
    - replace (10 * N.pos p + 5)%N
        with (N.succ (N.succ (N.succ (N.succ (N.succ (10 * N.pos p)))))) by lia.
      rewrite !DecimalPos.Unsigned.to_lu_succ, H10. reflexivity.
    - replace (10 * N.pos p + 6)%N
        with (N.succ (N.succ (N.succ (N.succ (N.succ (N.succ (10 * N.pos p)))))))
        by lia.
      rewrite !DecimalPos.Unsigned.to_lu_succ, H10. reflexivity.
    - replace (10 * N.pos p + 7)%N
        with (N.succ (N.succ (N.succ (N.succ (N.succ (N.succ (N.succ
                (10 * N.pos p)))))))) by lia.
      rewrite !DecimalPos.Unsigned.to_lu_succ, H10. reflexivity.
    - replace (10 * N.pos p + 8)%N
        with (N.succ (N.succ (N.succ (N.succ (N.succ (N.succ (N.succ (N.succ
                (10 * N.pos p))))))))) by lia.
      rewrite !DecimalPos.Unsigned.to_lu_succ, H10. reflexivity.
    - replace (10 * N.pos p + 9)%N
        with (N.succ (N.succ (N.succ (N.succ (N.succ (N.succ (N.succ (N.succ (N.succ
                (10 * N.pos p)))))))))) by lia.
      rewrite !DecimalPos.Unsigned.to_lu_succ, H10. reflexivity. }
  rewrite E. unfold Decimal.app. rewrite DecimalFacts.rev_rev.
  digit_cases d Hd; reflexivity.
Qed.

Lemma digits_snoc (q d : Z) :
  0 < q -> 0 <= d < 10 ->
  ToFixed.digits (10 * q + d) = (ToFixed.digits q ++ ToFixed.digits d)%string.
Proof.
  intros Hq Hd. unfold ToFixed.digits.
  replace (Z.to_N (10 * q + d)) with (10 * Z.to_N q + Z.to_N d)%N by lia.
  destruct (Z.to_N q) as [|p] eqn:Ep; [lia |].
  rewrite !string_of_to_uint, to_uint_snoc by lia.
  apply string_of_app.
Qed.

Lemma digits_of_a_digit (d : Z) :
  0 <= d < 10 -> String.length (ToFixed.digits d) = 1%nat.
Proof.
  intros Hd. unfold ToFixed.digits.
  assert (Hn : (Z.to_N d < 10)%N) by lia.
  digit_cases (Z.to_N d) Hn; reflexivity.
Qed.

Lemma digits_nonempty (n : Z) : (1 <= String.length (ToFixed.digits n))%nat.
Proof.
  unfold ToFixed.digits. rewrite string_of_to_uint.
  destruct (Z.to_N n) as [|p]; [cbn; lia |].
  cbn [N.to_uint]. pose proof (DecimalPos.Unsigned.to_uint_nonnil p) as H.
  destruct (Pos.to_uint p); cbn; try lia. congruence.
Qed.

Lemma place_point_below_100 :
  forallb (fun n => String.eqb (ToFixed.place_point n 2) (hundredths n))
          (map Z.of_nat (seq 0 100)) = true.
Proof. vm_compute. reflexivity. Qed.

(** Steps 9-10 of [toFixed] with two fraction digits: the text of [n]
    is the numeral of [n / 100] with its two decimals. *)
Lemma place_point_hundredths (n : Z) :
  0 <= n -> ToFixed.place_point n 2 = hundredths n.
Proof.
  intros Hn. destruct (Z_lt_le_dec n 100) as [Hlt | Hge].
  - pose proof place_point_below_100 as H. rewrite forallb_forall in H.
    apply String.eqb_eq, (H n). apply in_map_iff. exists (Z.to_nat n).
    split; [lia |]. apply in_seq. lia.
  - unfold hundredths, ToFixed.place_point.
    set (q := n / 100). set (d1 := n / 10 mod 10). set (d0 := n mod 10).
    assert (Hq : 0 < q) by (subst q; apply Z.div_str_pos; lia).
    assert (H1 : 0 <= d1 < 10) by (subst d1; apply Z.mod_pos_bound; lia).
    assert (H0 : 0 <= d0 < 10) by (subst d0; apply Z.mod_pos_bound; lia).
    assert (E : n = 10 * (10 * q + d1) + d0).
    { subst q d1 d0.
      pose proof (Z.div_mod n 10 ltac:(lia)) as E0.
      pose proof (Z.div_mod (n / 10) 10 ltac:(lia)) as E1.
      replace (n / 100) with (n / 10 / 10)
        by (rewrite Z.div_div; [reflexivity | lia | lia]).
      lia. }
    assert (Ed : ToFixed.digits n =
                 (ToFixed.digits q ++ ToFixed.digits d1 ++ ToFixed.digits d0)%string).
    { rewrite E at 1. rewrite !digits_snoc by lia. apply string_append_assoc. }
    pose proof (digits_nonempty q) as Lq.
    pose proof (digits_of_a_digit d1 H1) as L1.
    pose proof (digits_of_a_digit d0 H0) as L0.
    cbv zeta. rewrite Ed, !string_length_append, L1, L0.
    destruct (Nat.leb_spec (String.length (ToFixed.digits q) + (1 + 1)) 2) as [Hle|_];
      [lia |].
    rewrite !string_length_append, L1, L0.
    replace (String.length (ToFixed.digits q) + (1 + 1) - 2)%nat
      with (String.length (ToFixed.digits q)) by lia.
    rewrite substring_prefix.
    replace 2%nat with (String.length (ToFixed.digits d1 ++ ToFixed.digits d0)) at 1
      by (rewrite string_length_append; lia).
    rewrite substring_suffix. reflexivity.
Qed.

(** *** Rounding *)

(** Step 8 of [toFixed]: for the double [m * 2^e], [ToFixed.nearest]
    is the integer nearest to [scale * m * 2^e], the larger one of two
    equally near. *)
Lemma nearest_is_nearest (m : positive) (e : Z) (scale : Z) :
  0 < scale ->
  let n := ToFixed.nearest m e scale in
  0 <= n /\
  nearest_integer n scale (Z.pos m * 2 ^ Z.max 0 e) (2 ^ Z.max 0 (- e)).
Proof.
  intros Hs n. subst n. unfold ToFixed.nearest, nearest_integer.
  destruct (Z.leb_spec 0 e) as [He | He].
  - rewrite (Z.max_r 0 e), (Z.max_l 0 (- e)) by lia. rewrite Z.pow_0_r.
    set (P := 2 ^ e).
    assert (HP : 0 < P) by (apply Z.pow_pos_nonneg; lia).
    assert (0 < Z.pos m * P) by nia.
    split; nia.
  - rewrite (Z.max_l 0 e), (Z.max_r 0 (- e)) by lia. rewrite Z.pow_0_r.
    set (D := 2 ^ (- e)).
    assert (HD : 0 < D) by (apply Z.pow_pos_nonneg; lia).
    pose proof (Z.div_mod (2 * Z.pos m * scale + D) (2 * D) ltac:(lia)) as E.
    pose proof (Z.mod_pos_bound (2 * Z.pos m * scale + D) (2 * D) ltac:(lia)) as B.
    set (n := (2 * Z.pos m * scale + D) / (2 * D)) in *.
    split; [apply Z.div_pos; nia | nia].
Qed.

(** [toFixed(2)] of a finite double below [10^21] in magnitude: the
    sign, and the numeral with two decimals of the integer nearest to a
    hundred times the magnitude. *)
Lemma toFixed_rounds (x : float) (s : bool) (m : positive) (e : Z) :
  Prim2SF x = S754_finite s m e ->
  ToFixed.is_huge m e = false ->
  exists n,
    0 <= n /\
    nearest_integer n 100 (Z.pos m * 2 ^ Z.max 0 e) (2 ^ Z.max 0 (- e)) /\
    toFixed x 2 = Chars ((if s then "-" else "") ++ hundredths n).
Proof.
  intros Hx Hh. unfold toFixed. rewrite Hx, Hh.
  change (10 ^ Z.of_nat 2) with 100.
  destruct (nearest_is_nearest m e 100 ltac:(lia)) as [Hn Hr].
  exists (ToFixed.nearest m e 100). split; [exact Hn |]. split; [exact Hr |].
  cbv zeta. now rewrite place_point_hundredths.
Qed.

(** C8 (as the code has it).  [badgeMetric] sets a badge text only for a
    value its guard [value <= threshold] lets through, and the text is
    then [toFixed(2)] of the value in the display unit: of
    [value / 1000], the seconds, for lcp, and of the value itself for
    fid and cls.  [toFixed(2)] rounds, it does not cut: the text of a
    finite double below [10^21] is the numeral with two decimals of the
    integer nearest to a hundred times its magnitude, the larger one of
    two equally near, behind the sign; a zero gives "0.00".  So the text
    expressions give "2.50" for 2500 as lcp, "0.12" for 0.1234 and
    "100.00" for 99.999; [badgeMetric] sets "0.12" for cls 0.1234, and
    sets nothing for lcp 2500 and fid 99.999, which do not exceed their
    thresholds; above them lcp 2509 shows "2.51", fid 100.009 shows
    "100.01", cls 0.129 shows "0.13". *)
Theorem badge_text_is_rounded (v : float) (tabid : Z) (tabs : list Z) (t : Z) :
  currentTab tabid tabs = Some t ->
  (badgeMetric "lcp" v tabid tabs =
     Some (if (v <=? LCP_THRESHOLD)%float then []
           else metric_badge "../../icons/slow128w-lcp.png"
                  (toFixed (v / 1000)%float 2) t) /\
   badgeMetric "fid" v tabid tabs =
     Some (if (v <=? FID_THRESHOLD)%float then []
           else metric_badge "../../icons/slow128w-fid.png" (toFixed v 2) t) /\
   badgeMetric "cls" v tabid tabs =
     Some (if (v <=? CLS_THRESHOLD)%float then []
           else metric_badge "../../icons/slow128w-cls.png" (toFixed v 2) t)) /\
  (forall x s m e,
      Prim2SF x = S754_finite s m e ->
      ToFixed.is_huge m e = false ->
      exists n,
        0 <= n /\
        nearest_integer n 100 (Z.pos m * 2 ^ Z.max 0 e) (2 ^ Z.max 0 (- e)) /\
        toFixed x 2 = Chars ((if s then "-" else "") ++ hundredths n)) /\
  (forall x s, Prim2SF x = S754_zero s -> toFixed x 2 = Chars "0.00") /\
  (toFixed (2500 / 1000)%float 2 = Chars "2.50" /\
   toFixed 0.1234 2 = Chars "0.12" /\
   toFixed 99.999 2 = Chars "100.00") /\
  (badgeMetric "cls" 0.1234 tabid tabs =
     Some (metric_badge "../../icons/slow128w-cls.png" (Chars "0.12") t) /\
   badgeMetric "lcp" 2500 tabid tabs = Some [] /\
   badgeMetric "fid" 99.999 tabid tabs = Some [] /\
   badgeMetric "lcp" 2509 tabid tabs =
     Some (metric_badge "../../icons/slow128w-lcp.png" (Chars "2.51") t) /\
   badgeMetric "fid" 100.009 tabid tabs =
     Some (metric_badge "../../icons/slow128w-fid.png" (Chars "100.01") t) /\
   badgeMetric "cls" 0.129 tabid tabs =
     Some (metric_badge "../../icons/slow128w-cls.png" (Chars "0.13") t)).
Proof.
  intros Ht.
  split; [| split; [| split; [| split]]].
  - repeat split.
    + now apply badgeMetric_guard; [| tauto].
    + now apply badgeMetric_guard; [| tauto].
    + now apply badgeMetric_guard; [| tauto].
  - exact toFixed_rounds.
  - intros x s Hx. unfold toFixed. now rewrite Hx.
  - repeat split; reflexivity.
  - repeat split.
    + now rewrite (badgeMetric_guard "cls" _ CLS_THRESHOLD _ _ tabid tabs t Ht) by tauto.
    + now rewrite (badgeMetric_guard "lcp" _ LCP_THRESHOLD _ _ tabid tabs t Ht) by tauto.
    + now rewrite (badgeMetric_guard "fid" _ FID_THRESHOLD _ _ tabid tabs t Ht) by tauto.
    + now rewrite (badgeMetric_guard "lcp" _ LCP_THRESHOLD _ _ tabid tabs t Ht) by tauto.
    + now rewrite (badgeMetric_guard "fid" _ FID_THRESHOLD _ _ tabid tabs t Ht) by tauto.
    + now rewrite (badgeMetric_guard "cls" _ CLS_THRESHOLD _ _ tabid tabs t Ht) by tauto.
Qed.

Lemma badge_text_is_rounded_witness :
  badgeMetric "lcp" 2509 7 [] =
    Some (metric_badge "../../icons/slow128w-lcp.png" (toFixed (2509 / 1000)%float 2) 7) /\
  (exists n, 0 <= n /\
     nearest_integer n 100 (Z.pos 5649765732536287 * 2 ^ Z.max 0 (-51))
       (2 ^ Z.max 0 (- -51)) /\
     toFixed (2509 / 1000)%float 2 = Chars ("" ++ hundredths n)) /\
  badgeMetric "cls" 0.1234 7 [] =
    Some (metric_badge "../../icons/slow128w-cls.png" (Chars "0.12") 7) /\
  badgeMetric "lcp" 2500 7 [] = Some [].
Proof.
  destruct (badge_text_is_rounded 2509 7 [] 7 eq_refl)
    as ((Hlcp & _ & _) & Hround & _ & _ & (Hcls & Hlow & _)).
  split; [exact Hlcp |]. split; [| split; [exact Hcls | exact Hlow]].
  apply (Hround (2509 / 1000)%float false 5649765732536287%positive (-51));
    reflexivity.
Defined.

(** C8, the claim as worded fails: a metric render for lcp 2500, or for
    fid 99.999, sets no badge text at all. *)
Lemma badgeMetric_sets_no_text_at_2500 :
  badgeMetric "lcp" 2500 7 [] = Some [] /\
  badgeMetric "fid" 99.999 7 [] = Some [].
Proof. split; reflexivity. Qed.

(** ** The overall renderer *)

Lemma badge_of_insert (shown : gmap Z badge) (t t' : Z) (b : badge) :
  badge_of (<[t := b]> shown) t' = if decide (t = t') then b else badge_of shown t'.
Proof.
  unfold badge_of. rewrite lookup_insert. now destruct (decide (t = t')).
Qed.

Lemma perform_setIcon (shown : gmap Z badge) (path : string) (t t' : Z) :
  badgeText (badge_of (perform shown (setIcon path t)) t') = badgeText (badge_of shown t') /\
  badgeBackgroundColor (badge_of (perform shown (setIcon path t)) t') =
    badgeBackgroundColor (badge_of shown t') /\
  icon (badge_of (perform shown (setIcon path t)) t) = Some path.
Proof.
  cbn [perform]. rewrite !badge_of_insert.
  destruct (decide (t = t')) as [E|]; [subst t' |];
    (destruct (decide (t = t)); [| congruence]); now repeat split.
Qed.

Lemma perform_setBadgeText (shown : gmap Z badge) (txt : text) (t : Z) :
  badgeText (badge_of (perform shown (setBadgeText txt t)) t) = Some txt /\
  icon (badge_of (perform shown (setBadgeText txt t)) t) = icon (badge_of shown t).
Proof.
  cbn [perform]. rewrite !badge_of_insert.
  destruct (decide (t = t)); [now split | congruence].
Qed.

(** C10: called with ['GOOD'], [badgeOverallPerf] makes the one call
    [setIcon]; the badge text and background colour of every tab stay
    what they were, so a text left by an earlier metric frame is still
    shown.  With ['POOR'] and with any other category the badge text is
    set to the empty string. *)
Theorem badgeOverallPerf_GOOD_keeps_text
    (tabid : Z) (tabs : list Z) (t : Z) (shown : gmap Z badge) :
  currentTab tabid tabs = Some t ->
  badgeOverallPerf "GOOD" tabid tabs = Some [setIcon "../../icons/fast128w.png" t] /\
  (forall t',
      let after := perform_all shown [setIcon "../../icons/fast128w.png" t] in
      badgeText (badge_of after t') = badgeText (badge_of shown t') /\
      badgeBackgroundColor (badge_of after t') = badgeBackgroundColor (badge_of shown t')) /\
  (forall badgeCategory,
      badgeCategory <> "GOOD"%string ->
      let path := (if String.eqb badgeCategory "POOR"
                   then "../../icons/slow128w.png"
                   else "../../icons/default128w.png")%string in
      let calls := [setIcon path t; setBadgeText (Chars "") t] in
      badgeOverallPerf badgeCategory tabid tabs = Some calls /\
      badgeText (badge_of (perform_all shown calls) t) = Some (Chars "")).
Proof.
  intros Ht. split; [| split].
  - unfold badgeOverallPerf. now rewrite Ht.
  - intros t'. cbn [perform_all fold_left].
    destruct (perform_setIcon shown "../../icons/fast128w.png" t t') as (H1 & H2 & _).
    now split.
  - intros badgeCategory Hne path calls. subst path calls. split.
    + unfold badgeOverallPerf. rewrite Ht.
      destruct (String.eqb_spec badgeCategory "POOR") as [->|_]; [reflexivity |].
      destruct (String.eqb_spec badgeCategory "GOOD") as [->|_]; [congruence | reflexivity].
    + cbn [perform_all fold_left]. apply perform_setBadgeText.
Qed.

Lemma badgeOverallPerf_GOOD_keeps_text_witness :
  badgeOverallPerf "GOOD" 7 [] = Some [setIcon "../../icons/fast128w.png" 7] /\
  badgeOverallPerf "POOR" 7 [] =
    Some [setIcon "../../icons/slow128w.png" 7; setBadgeText (Chars "") 7].
Proof.
  destruct (badgeOverallPerf_GOOD_keeps_text 7 [] 7 ∅ eq_refl) as (Hgood & _ & Hother).
  split; [exact Hgood |].
  apply (Hother "POOR"%string). discriminate.
Defined.

(** The text of a failing lcp frame outlives a later ['GOOD'] verdict. *)
Example stale_text_under_the_good_icon :
  let lcp_frame := default [] (badgeMetric "lcp" 3000 7 []) in
  let good := default [] (badgeOverallPerf "GOOD" 7 []) in
  badge_of (perform_all (perform_all ∅ lcp_frame) good) 7 =
    Badge (Some "../../icons/fast128w.png"%string) (Some (Chars "3.00"))
          (Some "#000"%string).
Proof. reflexivity. Qed.

(** Reduce the fields of an updated state, and nothing else. *)
Ltac fields :=
  cbn [Upd.log Upd.set_table Upd.increment Upd.enqueue Upd.enter Upd.move
       Upd.set_tabs Upd.deliver init
       globalAnimationId animationsByTabId invocations queries shown
       openTabs trace] in *.

(** ** The sequencer: what one call of animateBadges does *)

Section AnimateBadges.

Variables (request : request_t) (tabId : Z) (w : world).

Let a := globalAnimationId w.
Let i := length (invocations w).
Let poor := String.eqb (passesAllThresholds request) "POOR".

Lemma animateBadges_trace :
  trace (animateBadges request tabId w) =
    trace w ++
      by_invocation i (table_set tabId a) ::
      by_invocation i (call_badgeOverallPerf (passesAllThresholds request) tabId) ::
      (if poor then [by_invocation i (call_wait delay)] else []).
Proof.
  unfold animateBadges. fold a i poor. destruct poor; cbn; now rewrite <- !app_assoc.
Qed.

Lemma animateBadges_invocations :
  invocations (animateBadges request tabId w) =
    invocations w ++
      [Invocation request tabId a (if poor then at_wait_lcp else returned)].
Proof. unfold animateBadges. fold a poor. now destruct poor. Qed.

Lemma animateBadges_queries :
  queries (animateBadges request tabId w) =
    queries w ++ [cb_badgeOverallPerf (passesAllThresholds request) tabId].
Proof. unfold animateBadges. fold a poor. now destruct poor. Qed.

Lemma animateBadges_counter :
  globalAnimationId (animateBadges request tabId w) = Number.increment a.
Proof. unfold animateBadges. fold a poor. now destruct poor. Qed.

Lemma animateBadges_table :
  animationsByTabId (animateBadges request tabId w) =
    <[tabId := a]> (animationsByTabId w).
Proof. unfold animateBadges. fold a poor. now destruct poor. Qed.

Lemma animateBadges_shown :
  shown (animateBadges request tabId w) = shown w.
Proof. unfold animateBadges. fold a poor. now destruct poor. Qed.

Lemma animateBadges_openTabs :
  openTabs (animateBadges request tabId w) = openTabs w.
Proof. unfold animateBadges. fold a poor. now destruct poor. Qed.

Lemma animateBadges_registrations :
  registrations (trace (animateBadges request tabId w)) =
    registrations (trace w) ++ [(tabId, a)].
Proof.
  rewrite animateBadges_trace. unfold registrations. rewrite omap_app.
  f_equal. now destruct poor.
Qed.

End AnimateBadges.

(** ** The sequencer: what one resumption does *)

Section Resumption.

Variables (i : nat) (inv : invocation) (w : world).

Let T := inv_tabId inv.
Let a := inv_animationId inv.
Let stale := superseded w T a.

Lemma metric_step_trace (metric : string) (v : float) (next : point) :
  trace (metric_step i inv metric v next w) =
    trace w ++
      by_invocation i (table_get T) ::
      (if stale then []
       else [by_invocation i (call_badgeMetric metric v T);
             by_invocation i (call_wait delay)]).
Proof.
  unfold metric_step. fold T a. change (superseded (Upd.log _ _ w) T a) with stale.
  destruct stale; fields; now rewrite <- ?app_assoc.
Qed.

Lemma metric_step_invocations (metric : string) (v : float) (next : point) :
  invocations (metric_step i inv metric v next w) =
    invocations (Upd.move i inv (if stale then returned else next) w).
Proof.
  unfold metric_step. fold T a. change (superseded (Upd.log _ _ w) T a) with stale.
  now destruct stale.
Qed.

Lemma metric_step_queries (metric : string) (v : float) (next : point) :
  queries (metric_step i inv metric v next w) =
    queries w ++ (if stale then [] else [cb_badgeMetric metric v T]).
Proof.
  unfold metric_step. fold T a. change (superseded (Upd.log _ _ w) T a) with stale.
  destruct stale; fields; [now rewrite app_nil_r | reflexivity].
Qed.

Lemma metric_step_rest (metric : string) (v : float) (next : point) :
  let w' := metric_step i inv metric v next w in
  globalAnimationId w' = globalAnimationId w /\
  animationsByTabId w' = animationsByTabId w /\
  shown w' = shown w /\ openTabs w' = openTabs w.
Proof.
  unfold metric_step. fold T a. change (superseded (Upd.log _ _ w) T a) with stale.
  now destruct stale.
Qed.

Lemma loop_step_trace :
  trace (loop_step i inv w) =
    trace w ++
      by_invocation i (table_get T) ::
      (if stale then [] else [by_invocation i (call_doesTabExist T)]).
Proof.
  unfold loop_step. fold T a. change (superseded (Upd.log _ _ w) T a) with stale.
  destruct stale; fields; now rewrite <- ?app_assoc.
Qed.

Lemma loop_step_invocations :
  invocations (loop_step i inv w) =
    invocations (Upd.move i inv (if stale then returned else at_doesTabExist) w).
Proof.
  unfold loop_step. fold T a. change (superseded (Upd.log _ _ w) T a) with stale.
  now destruct stale.
Qed.

Lemma loop_step_rest :
  let w' := loop_step i inv w in
  globalAnimationId w' = globalAnimationId w /\
  animationsByTabId w' = animationsByTabId w /\
  queries w' = queries w /\
  shown w' = shown w /\ openTabs w' = openTabs w.
Proof.
  unfold loop_step. fold T a. change (superseded (Upd.log _ _ w) T a) with stale.
  now destruct stale.
Qed.

End Resumption.

(** ** The invariant of the event loop *)

Lemma registrations_snoc (log : list entry) (e : entry) :
  registrations (log ++ [e]) =
    registrations log ++ match registration e with Some r => [r] | None => [] end.
Proof. unfold registrations. rewrite omap_app. cbn. now destruct (registration e). Qed.

Lemma registrations_browser (log : list entry) (cs : list action_call) :
  registrations (log ++ map by_browser cs) = registrations log.
Proof.
  unfold registrations. rewrite omap_app.
  replace (omap registration (map by_browser cs)) with (@nil (Z * N)).
  - apply app_nil_r.
  - induction cs as [|c cs IH]; [reflexivity | exact IH].
Qed.

Lemma generations_of_snoc (T : Z) (log : list entry) (e : entry) :
  registration e = None -> generations_of T (log ++ [e]) = generations_of T log.
Proof.
  intros H. unfold generations_of. rewrite registrations_snoc, H. now rewrite app_nil_r.
Qed.

(** Up to [2^53] the increment of the counter is exact, and there the
    counter stays. *)
Lemma Number_round_exact (n : N) : (n < 2 ^ 53)%N -> Number.round n = n.
Proof.
  intros H. unfold Number.round.
  assert (Hsize : (N.size n <= 53)%N).
  { destruct (N.eq_dec n 0%N) as [-> | Hn]; [cbn; lia |].
    rewrite N.size_log2 by exact Hn.
    apply N.log2_lt_pow2 in H; lia. }
  replace (N.size n - 53)%N with 0%N by lia. reflexivity.
Qed.

Lemma Number_increment_exact (n : N) :
  (n < 2 ^ 53)%N -> Number.increment n = (n + 1)%N.
Proof.
  intros H. unfold Number.increment.
  destruct (N.eq_dec (n + 1)%N (2 ^ 53)%N) as [E | E].
  - rewrite E. vm_compute. reflexivity.
  - apply Number_round_exact. lia.
Qed.

Lemma Number_increment_top : Number.increment (2 ^ 53) = (2 ^ 53)%N.
Proof. vm_compute. reflexivity. Qed.

(** The same on the doubles themselves: [2^53 + 1 === 2^53], while
    [2^53 - 1 + 1 === 2^53]. *)
Example doubles_at_2_53 :
  (9007199254740992 + 1 =? 9007199254740992)%float = true /\
  (9007199254740991 + 1 =? 9007199254740992)%float = true /\
  (9007199254740994 + 1 =? 9007199254740996)%float = true /\
  Number.increment 9007199254740991 = 9007199254740992%N /\
  Number.increment 9007199254740994 = 9007199254740996%N.
Proof. repeat split; reflexivity. Qed.

Lemma counted_le (k : nat) : (counted k <= 2 ^ 53)%N.
Proof. unfold counted. lia. Qed.

Lemma counted_exact (k : nat) :
  (N.of_nat k <= 2 ^ 53)%N -> counted k = N.of_nat k.
Proof. unfold counted. lia. Qed.

Lemma counted_mono (j k : nat) : (j <= k)%nat -> (counted j <= counted k)%N.
Proof. unfold counted. lia. Qed.

Lemma counted_below (j k : nat) :
  (j <= k)%nat -> (counted k < 2 ^ 53)%N -> counted j = N.of_nat j.
Proof. unfold counted. lia. Qed.

Lemma counted_S (k : nat) : Number.increment (counted k) = counted (S k).
Proof.
  destruct (N.lt_ge_cases (N.of_nat k) (2 ^ 53)%N) as [H | H].
  - rewrite (counted_exact k) by lia. rewrite Number_increment_exact by exact H.
    rewrite counted_exact by lia. lia.
  - unfold counted. rewrite !N.min_r by lia. apply Number_increment_top.
Qed.

Lemma consistent_init (tabs : gset Z) : consistent (init tabs).
Proof.
  constructor; cbn; try reflexivity.
  - intros i inv H. now rewrite lookup_nil in H.
  - intros i e H. now apply elem_of_nil in H.
  - intros k T g H. now rewrite lookup_nil in H.
Qed.

Lemma consistent_log (i : nat) (e : effect) (w : world) :
  consistent w -> (i < length (invocations w))%nat ->
  registration (by_invocation i e) = None ->
  consistent (Upd.log i e w).
Proof.
  intros [Hc Hi Ht Hr Hn Hl] Ha He. constructor; fields.
  - exact Hc.
  - exact Hi.
  - intros i' e' [H | H]%elem_of_app; [now apply Ht in H |].
    apply list_elem_of_singleton in H. now inversion H; subst.
  - rewrite registrations_snoc, He, app_nil_r. exact Hr.
  - rewrite registrations_snoc, He, app_nil_r. exact Hn.
  - intros T. rewrite generations_of_snoc by exact He. apply Hl.
Qed.

Lemma consistent_enqueue (cb : query_callback) (w : world) :
  consistent w -> consistent (Upd.enqueue cb w).
Proof. intros [Hc Hi Ht Hr Hn Hl]. now constructor. Qed.

Lemma consistent_set_tabs (tabs : gset Z) (w : world) :
  consistent w -> consistent (Upd.set_tabs tabs w).
Proof. intros [Hc Hi Ht Hr Hn Hl]. now constructor. Qed.

Lemma consistent_deliver (cs : list action_call) (w : world) :
  consistent w -> consistent (Upd.deliver cs w).
Proof.
  intros [Hc Hi Ht Hr Hn Hl]. constructor; fields; try assumption.
  - intros a e [H | H]%elem_of_app; [now apply Ht in H |].
    apply list_elem_of_In, in_map_iff in H. destruct H as (c & Hc' & _). discriminate.
  - now rewrite registrations_browser.
  - now rewrite registrations_browser.
  - intros T. unfold generations_of. rewrite registrations_browser. apply Hl.
Qed.

Lemma consistent_move (i : nat) (inv : invocation) (p : point) (w : world) :
  consistent w -> invocations w !! i = Some inv ->
  consistent (Upd.move i inv p w).
Proof.
  intros [Hc Hi Ht Hr Hn Hl] Hinv.
  constructor; fields; rewrite ?length_insert; try assumption.
  intros j inv' [(-> & <- & _) | (_ & H)]%list_lookup_insert_Some.
  - cbn. now apply Hi.
  - now apply Hi.
Qed.

Lemma consistent_animateBadges (request : request_t) (tabId : Z) (w : world) :
  consistent w -> consistent (animateBadges request tabId w).
Proof.
  intros [Hc Hi Ht Hr Hn Hl]. constructor.
  - rewrite animateBadges_counter, animateBadges_invocations, length_app, Hc.
    cbn [length]. rewrite Nat.add_1_r. apply counted_S.
  - rewrite animateBadges_invocations.
    intros i inv [(_ & H) | (-> & <-)]%lookup_snoc_Some; [now apply Hi |].
    cbn. exact Hc.
  - rewrite animateBadges_invocations, animateBadges_trace, length_app.
    intros i e [H | H]%elem_of_app; [apply Ht in H; lia |].
    assert (i = length (invocations w)); [| cbn [length]; lia].
    rewrite !elem_of_cons in H.
    destruct H as [H | [H | H]]; try (now inversion H).
    destruct (String.eqb _ _); [| now apply elem_of_nil in H].
    apply list_elem_of_singleton in H. now inversion H.
  - rewrite animateBadges_registrations.
    intros k T g [(_ & H) | (-> & H)]%lookup_snoc_Some; [now apply Hr in H |].
    inversion H; subst. rewrite Hn. exact Hc.
  - rewrite animateBadges_registrations, animateBadges_invocations, !length_app.
    cbn. lia.
  - intros T. rewrite animateBadges_table. unfold generations_of.
    rewrite animateBadges_registrations, filter_app, fmap_app.
    rewrite lookup_insert. destruct (decide (tabId = T)) as [->|Hne].
    + rewrite filter_cons_True by reflexivity. cbn. now rewrite last_snoc.
    + rewrite filter_cons_False by (cbn; congruence).
      rewrite filter_nil. cbn. rewrite app_nil_r. apply Hl.
Qed.

Lemma consistent_tag (w : world) (i : nat) (inv : invocation) :
  consistent w -> invocations w !! i = Some inv ->
  (inv_animationId inv <= globalAnimationId w)%N.
Proof.
  intros [Hc Hi _ _ _ _] H. rewrite (Hi _ _ H), Hc.
  apply lookup_lt_Some in H. apply counted_mono. lia.
Qed.

Lemma consistent_step (w : world) (ev : event) :
  consistent w -> consistent (step w ev).
Proof.
  intros Hw. destruct ev as [request tabId | i | i | tabs | t | t]; cbn [step].
  - now apply consistent_animateBadges.
  - unfold on_timer. destruct (invocations w !! i) as [inv|] eqn:Hinv; [| exact Hw].
    pose proof (lookup_lt_Some _ _ _ Hinv) as Htag.
    destruct (inv_at inv); try exact Hw;
      unfold metric_step, loop_step;
      match goal with |- context [superseded ?w' ?T ?a] => destruct (superseded w' T a) end;
      repeat first [ apply consistent_move | apply consistent_log
                   | apply consistent_enqueue ];
      auto.
  - unfold on_tabs_get. destruct (invocations w !! i) as [inv|] eqn:Hinv; [| exact Hw].
    destruct (inv_at inv); try exact Hw.
    destruct (negb _).
    + now apply consistent_move.
    + apply consistent_move; [now apply consistent_animateBadges |].
      rewrite animateBadges_invocations. rewrite lookup_app_l; [exact Hinv |].
      now apply lookup_lt_Some in Hinv.
  - unfold on_tabs_query. destruct (queries w); [exact Hw |].
    now apply consistent_deliver.
  - now apply consistent_set_tabs.
  - now apply consistent_set_tabs.
Qed.

Lemma run_cons (ev : event) (evs : list event) (w : world) :
  run (ev :: evs) w = run evs (step w ev).
Proof. reflexivity. Qed.

Lemma consistent_run (evs : list event) (w : world) :
  consistent w -> consistent (run evs w).
Proof.
  revert w. induction evs as [|ev evs IH]; intros w Hw.
  - exact Hw.
  - rewrite run_cons. apply IH. now apply consistent_step.
Qed.

Lemma run_app (evs evs' : list event) (w : world) :
  run (evs ++ evs') w = run evs' (run evs w).
Proof. unfold run. apply fold_left_app. Qed.

(** ** Generations *)

Lemma registered_up_to_counter (w : world) :
  consistent w ->
  Forall (fun r => (r.2 <= globalAnimationId w)%N) (registrations (trace w)).
Proof.
  intros [Hc _ _ Hr Hn _]. apply Forall_lookup. intros k [T g] Hk. cbn.
  rewrite (Hr _ _ _ Hk), Hc, <- Hn.
  apply lookup_lt_Some in Hk. apply counted_mono. lia.
Qed.

Lemma registered_below_counter (w : world) :
  consistent w -> (globalAnimationId w < 2 ^ 53)%N ->
  Forall (fun r => (r.2 < globalAnimationId w)%N) (registrations (trace w)).
Proof.
  intros [Hc _ _ Hr Hn _] Hlt. apply Forall_lookup. intros k [T g] Hk. cbn.
  rewrite (Hr _ _ _ Hk). rewrite Hc in *. rewrite <- Hn in *.
  apply lookup_lt_Some in Hk.
  rewrite (counted_below k _ (Nat.lt_le_incl _ _ Hk) Hlt).
  rewrite (counted_below _ _ (Nat.le_refl _) Hlt). lia.
Qed.

Lemma counter_animateBadges (request : request_t) (T : Z) (w : world) :
  consistent w ->
  (globalAnimationId w <= globalAnimationId (animateBadges request T w))%N.
Proof.
  intros Hw. rewrite animateBadges_counter, (counter_counts w Hw), counted_S.
  apply counted_mono. lia.
Qed.

Lemma counter_step (w : world) (ev : event) :
  consistent w -> (globalAnimationId w <= globalAnimationId (step w ev))%N.
Proof.
  intros Hw.
  destruct ev as [request tabId | i | i | tabs | t | t]; cbn [step];
    try reflexivity.
  - now apply counter_animateBadges.
  - unfold on_timer. destruct (invocations w !! i) as [inv|]; [| reflexivity].
    destruct (inv_at inv); try reflexivity.
    + now rewrite (proj1 (metric_step_rest i inv w _ _ _)).
    + now rewrite (proj1 (metric_step_rest i inv w _ _ _)).
    + now rewrite (proj1 (metric_step_rest i inv w _ _ _)).
    + now rewrite (proj1 (loop_step_rest i inv w)).
  - unfold on_tabs_get. destruct (invocations w !! i) as [inv|]; [| reflexivity].
    destruct (inv_at inv); try reflexivity.
    destruct (negb _); fields; [reflexivity |].
    now apply counter_animateBadges.
  - unfold on_tabs_query. now destruct (queries w).
Qed.

Lemma counter_never_decreases (evs : list event) (w : world) :
  consistent w -> (globalAnimationId w <= globalAnimationId (run evs w))%N.
Proof.
  revert w. induction evs as [|ev evs IH]; intros w Hw; [reflexivity |].
  rewrite run_cons. pose proof (counter_step w ev Hw).
  pose proof (IH (step w ev) (consistent_step w ev Hw)). lia.
Qed.

(** At [2^53] the counter stays where it is: the next call registers
    the same generation again. *)
Lemma counter_stays_at_2_53 (request : request_t) (T : Z) (w : world) :
  globalAnimationId w = (2 ^ 53)%N ->
  let w' := animateBadges request T w in
  globalAnimationId w' = (2 ^ 53)%N /\
  registrations (trace w') = registrations (trace w) ++ [(T, (2 ^ 53)%N)].
Proof.
  intros H w'. subst w'.
  rewrite animateBadges_counter, animateBadges_registrations, H.
  split; [apply Number_increment_top | reflexivity].
Qed.

(** C2: every call of [animateBadges], from a message or from the loop,
    writes the counter's value into the table as the generation of its
    tab and then increments the counter, which is a double and never
    decreases; the table holds for each tab the generation of the last
    call made for that tab.  As long as the counter is below [2^53],
    that is as long as fewer than [2^53] calls have been made, the
    generation a call registers is strictly larger than every
    generation registered before it, for whatever tab, and the counter
    grows by one. *)
Theorem generations_strictly_increase (tabs0 : gset Z) (evs : list event) :
  let w := run evs (init tabs0) in
  (forall T, animationsByTabId w !! T = last (generations_of T (trace w))) /\
  (forall request T,
      let w' := animateBadges request T w in
      registrations (trace w') = registrations (trace w) ++ [(T, globalAnimationId w)] /\
      animationsByTabId w' !! T = Some (globalAnimationId w) /\
      globalAnimationId w' = Number.increment (globalAnimationId w)) /\
  (forall later, (globalAnimationId w <= globalAnimationId (run later w))%N) /\
  ((globalAnimationId w < 2 ^ 53)%N ->
   (forall i j Ti gi Tj gj,
       (i < j)%nat ->
       registrations (trace w) !! i = Some (Ti, gi) ->
       registrations (trace w) !! j = Some (Tj, gj) ->
       (gi < gj)%N) /\
   Forall (fun r => (r.2 < globalAnimationId w)%N) (registrations (trace w)) /\
   (forall request T,
       globalAnimationId (animateBadges request T w) = (globalAnimationId w + 1)%N)).
Proof.
  intros w.
  assert (Hw : consistent w) by (apply consistent_run, consistent_init).
  split; [| split; [| split]].
  - apply (table_is_last w Hw).
  - intros request T w'. subst w'.
    rewrite animateBadges_registrations, animateBadges_table, animateBadges_counter.
    repeat split. apply lookup_insert_eq.
  - intros later. now apply counter_never_decreases.
  - intros Hlt. split; [| split].
    + intros i j Ti gi Tj gj Hij Hi Hj.
      rewrite (registered_in_order w Hw _ _ _ Hi), (registered_in_order w Hw _ _ _ Hj).
      pose proof (lookup_lt_Some _ _ _ Hj) as Hlen.
      rewrite (registered_count w Hw) in Hlen.
      rewrite (counter_counts w Hw) in Hlt.
      rewrite (counted_below i (length (invocations w))) by (exact Hlt || lia).
      rewrite (counted_below j (length (invocations w))) by (exact Hlt || lia).
      lia.
    + now apply registered_below_counter.
    + intros request T. rewrite animateBadges_counter.
      now apply Number_increment_exact.
Qed.

Lemma generations_strictly_increase_witness :
  let w := run [message slow_page 7; message fast_page 8; message slow_page 7] (init {[7; 8]}) in
  registrations (trace w) = [(7, 0%N); (8, 1%N); (7, 2%N)] /\
  (globalAnimationId w < 2 ^ 53)%N /\
  (0 < 1)%N /\
  animationsByTabId w !! 7 = Some 2%N /\
  globalAnimationId (animateBadges slow_page 8 w) = 4%N.
Proof.
  pose proof (generations_strictly_increase {[7; 8]}
                [message slow_page 7; message fast_page 8; message slow_page 7])
    as (Hlast & _ & _ & Hbelow).
  assert (Hlt : (3 < 2 ^ 53)%N) by reflexivity.
  destruct (Hbelow Hlt) as (Hless & _ & Hnext).
  split; [reflexivity |]. split; [exact Hlt |]. split; [| split].
  - apply (Hless 0%nat 1%nat 7 0%N 8 1%N); [lia | reflexivity | reflexivity].
  - rewrite Hlast. reflexivity.
  - apply (Hnext slow_page 8).
Defined.

(** ** A returned invocation stays silent *)

Lemma step_extends_trace (w : world) (ev : event) :
  exists new,
    trace (step w ev) = trace w ++ new /\
    forall i e, by_invocation i e ∈ new -> may_act w i.
Proof.
  assert (Hnone : exists new, trace w = trace w ++ new /\
                    forall i e, by_invocation i e ∈ new -> may_act w i).
  { exists []. split; [now rewrite app_nil_r |]. intros i e H. now apply elem_of_nil in H. }
  assert (Hstart : forall request tabId p,
             forall i e,
               by_invocation i e ∈
                 by_invocation (length (invocations w))
                   (table_set tabId (globalAnimationId w)) ::
                 by_invocation (length (invocations w))
                   (call_badgeOverallPerf (passesAllThresholds request) tabId) ::
                 (if p : bool
                  then [by_invocation (length (invocations w)) (call_wait delay)]
                  else []) ->
               may_act w i).
  { intros request tabId p i e H. left.
    rewrite !elem_of_cons in H. destruct H as [H | [H | H]]; try (now inversion H).
    destruct p; [| now apply elem_of_nil in H].
    apply list_elem_of_singleton in H. now inversion H. }
  destruct ev as [request tabId | i | i | tabs | t | t]; cbn [step]; try exact Hnone.
  - eexists. split; [apply animateBadges_trace | apply Hstart].
  - unfold on_timer. destruct (invocations w !! i) as [inv|] eqn:Hinv; [| exact Hnone].
    assert (Hact : forall p, inv_at inv = p -> p <> returned ->
                   forall (stale : bool) (l : list effect) j e,
                     by_invocation j e ∈
                       by_invocation i (table_get (inv_tabId inv)) ::
                       (if stale then [] else map (by_invocation i) l) ->
                     may_act w j).
    { intros p Hp Hne stale l j e H. right. exists inv.
      assert (j = i) as ->; [| split; [exact Hinv | congruence]].
      apply elem_of_cons in H. destruct H as [H | H]; [now inversion H |].
      destruct stale; [now apply elem_of_nil in H |].
      apply list_elem_of_fmap in H. destruct H as (x & H & _). now inversion H. }
    destruct (inv_at inv) eqn:Hat; try exact Hnone.
    + eexists. split; [apply metric_step_trace |].
      apply (Hact _ eq_refl ltac:(discriminate) _ [_; _]).
    + eexists. split; [apply metric_step_trace |].
      apply (Hact _ eq_refl ltac:(discriminate) _ [_; _]).
    + eexists. split; [apply metric_step_trace |].
      apply (Hact _ eq_refl ltac:(discriminate) _ [_; _]).
    + eexists. split; [apply loop_step_trace |].
      apply (Hact _ eq_refl ltac:(discriminate) _ [_]).
  - unfold on_tabs_get. destruct (invocations w !! i) as [inv|] eqn:Hinv; [| exact Hnone].
    destruct (inv_at inv); try exact Hnone.
    destruct (negb _); fields; [exact Hnone |].
    eexists. split; [apply animateBadges_trace | apply Hstart].
  - unfold on_tabs_query. destruct (queries w); [exact Hnone |]. fields.
    eexists. split; [reflexivity |].
    intros i e H. apply list_elem_of_fmap in H. destruct H as (x & H & _). discriminate.
Qed.

Lemma step_keeps_returned (w : world) (ev : event) (i : nat) (inv : invocation) :
  invocations w !! i = Some inv -> inv_at inv = returned ->
  invocations (step w ev) !! i = Some inv.
Proof.
  intros Hinv Hat.
  assert (Hmove : forall j inv' p, invocations w !! j = Some inv' ->
                    inv_at inv' <> returned ->
                    invocations (Upd.move j inv' p w) !! i = Some inv).
  { intros j inv' p Hj Hne. fields.
    rewrite list_lookup_insert_ne; [exact Hinv |]. intros ->. congruence. }
  destruct ev as [request tabId | j | j | tabs | t | t]; cbn [step]; try exact Hinv.
  - rewrite animateBadges_invocations, lookup_app_l; [exact Hinv |].
    now apply lookup_lt_Some in Hinv.
  - unfold on_timer. destruct (invocations w !! j) as [inv'|] eqn:Hj; [| exact Hinv].
    destruct (inv_at inv') eqn:Hat'; try exact Hinv;
      rewrite ?metric_step_invocations, ?loop_step_invocations;
      apply Hmove; congruence.
  - unfold on_tabs_get. destruct (invocations w !! j) as [inv'|] eqn:Hj; [| exact Hinv].
    destruct (inv_at inv') eqn:Hat'; try exact Hinv.
    destruct (negb _); [apply Hmove; congruence |].
    fields. rewrite list_lookup_insert_ne by (intros ->; congruence).
    rewrite animateBadges_invocations, lookup_app_l; [exact Hinv |].
    now apply lookup_lt_Some in Hinv.
  - unfold on_tabs_query. now destruct (queries w).
Qed.

Lemma effects_of_app (i : nat) (log log' : list entry) :
  effects_of i (log ++ log') = effects_of i log ++ effects_of i log'.
Proof. apply omap_app. Qed.

Lemma effects_of_others (i : nat) (log : list entry) :
  (forall i' e, by_invocation i' e ∈ log -> i' <> i) -> effects_of i log = [].
Proof.
  induction log as [|x log IH]; intros H; [reflexivity |].
  unfold effects_of. cbn [omap list_omap]. fold (effects_of i log).
  rewrite IH by (intros i' e Hin; apply (H i' e); now right).
  destruct x as [i' e | c]; [| reflexivity]. cbn.
  destruct (decide (i' = i)) as [E|]; [| reflexivity].
  exfalso. apply (H i' e); [now left | exact E].
Qed.

Lemma returned_is_silent_step (w : world) (ev : event) (i : nat) (inv : invocation) :
  invocations w !! i = Some inv -> inv_at inv = returned ->
  effects_of i (trace (step w ev)) = effects_of i (trace w).
Proof.
  intros Hinv Hat.
  destruct (step_extends_trace w ev) as (new & -> & Hnew).
  rewrite effects_of_app, (effects_of_others _ new); [apply app_nil_r |].
  intros i' e Hin E. subst i'.
  destruct (Hnew _ _ Hin) as [Hfresh | (inv' & Hj & Hne)].
  - apply lookup_lt_Some in Hinv. lia.
  - congruence.
Qed.

(** Once an invocation has returned, no event makes it act again: the
    effects it has in the log are all it will ever have. *)
Lemma returned_is_silent (evs : list event) (w : world) (i : nat) (inv : invocation) :
  invocations w !! i = Some inv -> inv_at inv = returned ->
  effects_of i (trace (run evs w)) = effects_of i (trace w) /\
  invocations (run evs w) !! i = Some inv.
Proof.
  revert w. induction evs as [|ev evs IH]; intros w Hinv Hat.
  - now split.
  - rewrite run_cons. destruct (IH (step w ev)) as [IH1 IH2].
    + now apply step_keeps_returned.
    + exact Hat.
    + split; [| exact IH2].
      rewrite IH1. now apply (returned_is_silent_step w ev i inv).
Qed.

Lemma effects_of_own (i : nat) (effs : list effect) :
  effects_of i (map (by_invocation i) effs) = effs.
Proof.
  induction effs as [|e effs IH]; [reflexivity |].
  unfold effects_of in *. cbn. rewrite IH.
  now destruct (decide (i = i)).
Qed.

Lemma effects_of_fresh (w : world) :
  consistent w -> effects_of (length (invocations w)) (trace w) = [].
Proof.
  intros Hw. apply effects_of_others. intros i e Hin.
  pose proof (tags_entered w Hw _ _ Hin). lia.
Qed.

(** ** A verdict other than POOR *)

(** C3: when [passesAllThresholds] is not ['POOR'], [animateBadges]
    registers its generation, calls [badgeOverallPerf] once and has
    returned: it awaits no delay, calls [badgeMetric] for no metric, and
    whatever happens afterwards it never acts again.  The metrics of
    the request play no part. *)
Theorem not_POOR_renders_once
    (tabs0 : gset Z) (evs : list event) (request : request_t) (T : Z)
    (later : list event) :
  passesAllThresholds request <> "POOR"%string ->
  let w := run evs (init tabs0) in
  let i := length (invocations w) in
  let a := globalAnimationId w in
  let w' := animateBadges request T w in
  trace w' = trace w ++
    [ by_invocation i (table_set T a);
      by_invocation i (call_badgeOverallPerf (passesAllThresholds request) T) ] /\
  queries w' = queries w ++ [cb_badgeOverallPerf (passesAllThresholds request) T] /\
  invocations w' = invocations w ++ [Invocation request T a returned] /\
  effects_of i (trace (run later w')) =
    [ table_set T a; call_badgeOverallPerf (passesAllThresholds request) T ].
Proof.
  intros Hne w i a w'.
  assert (Hw : consistent w) by (apply consistent_run, consistent_init).
  assert (Hpoor : String.eqb (passesAllThresholds request) "POOR" = false)
    by now apply String.eqb_neq.
  assert (Htrace : trace w' = trace w ++
            map (by_invocation i)
              [table_set T a; call_badgeOverallPerf (passesAllThresholds request) T]).
  { subst w'. rewrite animateBadges_trace, Hpoor. reflexivity. }
  assert (Hinv : invocations w' = invocations w ++ [Invocation request T a returned]).
  { subst w'. rewrite animateBadges_invocations, Hpoor. reflexivity. }
  split; [exact Htrace |]. split; [apply animateBadges_queries |].
  split; [exact Hinv |].
  destruct (returned_is_silent later w' i (Invocation request T a returned))
    as [Hsilent _].
  - rewrite Hinv. apply list_lookup_middle. reflexivity.
  - reflexivity.
  - rewrite Hsilent, Htrace, effects_of_app.
    subst i. rewrite effects_of_fresh by exact Hw. apply effects_of_own.
Qed.

Lemma not_POOR_renders_once_witness :
  effects_of 0 (trace (run [tabs_query_reply []; timer 0; tabs_get_reply 0]
                           (animateBadges fast_page 7 (init {[7]})))) =
    [ table_set 7 0; call_badgeOverallPerf "GOOD" 7 ].
Proof.
  apply (not_POOR_renders_once {[7]} [] fast_page 7
           [tabs_query_reply []; timer 0; tabs_get_reply 0]).
  discriminate.
Defined.

(** ** The tab is gone *)

Lemma doesTabExist_false (tabs : gset Z) (T : Z) :
  T ∉ tabs -> doesTabExist tabs T = false.
Proof.
  intros H. unfold doesTabExist, chrome_tabs_get.
  now destruct (decide (T ∈ tabs)).
Qed.

Lemma doesTabExist_true (tabs : gset Z) (T : Z) :
  T ∈ tabs -> doesTabExist tabs T = true.
Proof.
  intros H. unfold doesTabExist, chrome_tabs_get.
  now destruct (decide (T ∈ tabs)).
Qed.

(** C7: when the answer of [doesTabExist] at the end of a cycle is
    false, the invocation returns: it enters no further iteration
    (nothing is registered, logged or queued by the step) and it never
    acts again, whatever the verdict of its request.  For a tab that is
    not open [doesTabExist] yields the boolean false. *)
Theorem tab_gone_stops_the_loop
    (tabs0 : gset Z) (evs : list event) (i : nat) (inv : invocation)
    (later : list event) :
  let w := run evs (init tabs0) in
  invocations w !! i = Some inv ->
  inv_at inv = at_doesTabExist ->
  inv_tabId inv ∉ openTabs w ->
  let w' := step w (tabs_get_reply i) in
  doesTabExist (openTabs w) (inv_tabId inv) = false /\
  w' = Upd.move i inv returned w /\
  trace w' = trace w /\
  queries w' = queries w /\
  globalAnimationId w' = globalAnimationId w /\
  animationsByTabId w' = animationsByTabId w /\
  effects_of i (trace (run later w')) = effects_of i (trace w).
Proof.
  intros w Hinv Hat Hgone w'.
  pose proof (doesTabExist_false _ _ Hgone) as Hfalse.
  assert (Hw' : w' = Upd.move i inv returned w).
  { subst w'. cbn [step]. unfold on_tabs_get. now rewrite Hinv, Hat, Hfalse. }
  split; [exact Hfalse |]. split; [exact Hw' |].
  rewrite Hw'. repeat split.
  destruct (returned_is_silent later (Upd.move i inv returned w) i
              (Invocation (inv_request inv) (inv_tabId inv) (inv_animationId inv) returned))
    as [Hsilent _].
  - fields. apply list_lookup_insert_eq. now apply lookup_lt_Some in Hinv.
  - reflexivity.
  - exact Hsilent.
Qed.

Lemma tab_gone_stops_the_loop_witness :
  let evs := [message slow_page 7; timer 0; timer 0; timer 0; timer 0; tab_removed 7] in
  let w := run evs (init {[7]}) in
  let w' := step w (tabs_get_reply 0) in
  inv_at <$> invocations w' = [returned] /\
  trace w' = trace w /\
  effects_of 0 (trace (run [timer 0; tabs_get_reply 0; tabs_query_reply []] w')) =
    effects_of 0 (trace w).
Proof.
  intros evs w w'.
  destruct (tab_gone_stops_the_loop {[7]} evs 0
              (Invocation slow_page 7 0 at_doesTabExist)
              [timer 0; tabs_get_reply 0; tabs_query_reply []])
    as (_ & Hmove & Htrace & _ & _ & _ & Hsilent).
  - reflexivity.
  - reflexivity.
  - apply (bool_decide_unpack _). vm_compute. reflexivity.
  - fold evs w w' in Hmove, Htrace, Hsilent. split; [| split].
    + rewrite Hmove. reflexivity.
    + exact Htrace.
    + exact Hsilent.
Defined.

(** ** One cycle of a current invocation *)

Lemma superseded_current (w : world) (T : Z) (a : N) :
  animationsByTabId w !! T = Some a -> superseded w T a = false.
Proof. intros H. unfold superseded. now rewrite bool_decide_eq_true_2. Qed.

Lemma superseded_stale (w : world) (T : Z) (a : N) :
  animationsByTabId w !! T <> Some a -> superseded w T a = true.
Proof. intros H. unfold superseded. now rewrite bool_decide_eq_false_2. Qed.

Lemma on_timer_metric (w : world) (i : nat) (inv : invocation)
    (metric : string) (v : float) (next : point) :
  invocations w !! i = Some inv ->
  (inv_at inv, metric, v, next) ∈ metric_steps (metrics (inv_request inv)) ->
  on_timer i w = metric_step i inv metric v next w.
Proof.
  intros Hinv Hin. unfold on_timer. rewrite Hinv.
  unfold metric_steps in Hin. rewrite !elem_of_cons, elem_of_nil in Hin.
  destruct Hin as [H | [H | [H | []]]]; inversion H as [[Hat Hm Hv Hn]];
    now rewrite Hat.
Qed.

Lemma animateBadges_current (request : request_t) (T : Z) (w : world) :
  passesAllThresholds request = "POOR"%string ->
  current_at (animateBadges request T w) (length (invocations w)) request T
             (globalAnimationId w) at_wait_lcp.
Proof.
  intros Hpoor. split.
  - rewrite animateBadges_invocations, Hpoor. now apply list_lookup_middle.
  - rewrite animateBadges_table. apply lookup_insert_eq.
Qed.

Lemma timer_metric_current (w : world) (i : nat) (request : request_t) (T : Z)
    (a : N) (p : point) (metric : string) (v : float) (next : point) :
  current_at w i request T a p ->
  (p, metric, v, next) ∈ metric_steps (metrics request) ->
  let w' := on_timer i w in
  current_at w' i request T a next /\
  trace w' = trace w ++
    map (by_invocation i) [table_get T; call_badgeMetric metric v T; call_wait delay] /\
  queries w' = queries w ++ [cb_badgeMetric metric v T] /\
  invocations w' = <[i := Invocation request T a next]> (invocations w) /\
  globalAnimationId w' = globalAnimationId w /\
  openTabs w' = openTabs w.
Proof.
  intros [Hinv Htab] Hin w'. subst w'.
  rewrite (on_timer_metric w i _ metric v next Hinv Hin).
  pose proof (superseded_current w T a Htab) as Hcur.
  pose proof (metric_step_rest i (Invocation request T a p) w metric v next)
    as (Hc & Ht & _ & Ho).
  unfold current_at.
  rewrite metric_step_trace, metric_step_queries, !metric_step_invocations.
  cbn [inv_tabId inv_animationId inv_request]. rewrite Hcur.
  repeat split.
  - fields. apply list_lookup_insert_eq. now apply lookup_lt_Some in Hinv.
  - now rewrite Ht.
  - exact Hc.
  - exact Ho.
Qed.

Lemma timer_loop_current (w : world) (i : nat) (request : request_t) (T : Z) (a : N) :
  current_at w i request T a at_wait_loop ->
  let w' := on_timer i w in
  current_at w' i request T a at_doesTabExist /\
  trace w' = trace w ++ map (by_invocation i) [table_get T; call_doesTabExist T] /\
  queries w' = queries w /\
  invocations w' = <[i := Invocation request T a at_doesTabExist]> (invocations w) /\
  globalAnimationId w' = globalAnimationId w /\
  openTabs w' = openTabs w.
Proof.
  intros [Hinv Htab] w'. subst w'. unfold on_timer. rewrite Hinv. cbn [inv_at].
  pose proof (superseded_current w T a Htab) as Hcur.
  pose proof (loop_step_rest i (Invocation request T a at_wait_loop) w)
    as (Hc & Ht & Hq & _ & Ho).
  unfold current_at.
  rewrite loop_step_trace, !loop_step_invocations.
  cbn [inv_tabId inv_animationId inv_request]. rewrite Hcur.
  repeat split.
  - fields. apply list_lookup_insert_eq. now apply lookup_lt_Some in Hinv.
  - now rewrite Ht.
  - exact Hq.
  - exact Hc.
  - exact Ho.
Qed.

(** The tab is still there: the invocation calls [animateBadges] again,
    without looking at the table, and returns. *)
Lemma tabs_get_reenters (w : world) (i : nat) (request : request_t) (T : Z) (a : N) :
  invocations w !! i = Some (Invocation request T a at_doesTabExist) ->
  T ∈ openTabs w ->
  on_tabs_get i w =
    Upd.move i (Invocation request T a at_doesTabExist) returned
      (animateBadges request T w).
Proof.
  intros Hinv Hopen. unfold on_tabs_get. rewrite Hinv. cbn [inv_at inv_tabId inv_request].
  now rewrite (doesTabExist_true _ _ Hopen).
Qed.

(** C4: with verdict ['POOR'] and nothing interfering, one iteration
    does, in this order: register, draw the overall badge, and then for
    lcp, fid and cls in turn wait 2000 ms, read the table, call
    [badgeMetric]; it waits 2000 ms once more, reads the table, asks
    whether the tab exists, and re-enters [animateBadges], which
    registers the next generation and draws the overall badge again.
    The re-entry is the next invocation, and its generation is the
    counter after one increment. *)
Theorem POOR_cycle_in_order (w : world) (request : request_t) (T : Z) :
  passesAllThresholds request = "POOR"%string ->
  T ∈ openTabs w ->
  let a := globalAnimationId w in
  let i := length (invocations w) in
  let m := metrics request in
  let w' := run [timer i; timer i; timer i; timer i; tabs_get_reply i]
                (animateBadges request T w) in
  trace w' =
    trace w ++
    map (by_invocation i)
      [ table_set T a;
        call_badgeOverallPerf "POOR" T;
        call_wait 2000; table_get T; call_badgeMetric "lcp" (value (lcp m)) T;
        call_wait 2000; table_get T; call_badgeMetric "fid" (value (fid m)) T;
        call_wait 2000; table_get T; call_badgeMetric "cls" (value (cls m)) T;
        call_wait 2000; table_get T; call_doesTabExist T ] ++
    map (by_invocation (S i))
      [ table_set T (Number.increment a);
        call_badgeOverallPerf "POOR" T;
        call_wait 2000 ] /\
  invocations w' =
    invocations w ++
      [ Invocation request T a returned;
        Invocation request T (Number.increment a) at_wait_lcp ].
Proof.
  intros Hpoor Hopen a i m w'. subst w'. rewrite !run_cons.
  change (run [] ?x) with x.
  set (w0 := animateBadges request T w).
  assert (H0 : current_at w0 i request T a at_wait_lcp)
    by now apply animateBadges_current.
  assert (O0 : openTabs w0 = openTabs w) by apply animateBadges_openTabs.
  assert (C0 : globalAnimationId w0 = Number.increment a) by apply animateBadges_counter.
  assert (T0 : trace w0 = trace w ++
            map (by_invocation i)
              [table_set T a; call_badgeOverallPerf "POOR" T; call_wait 2000]).
  { subst w0. rewrite animateBadges_trace, Hpoor. reflexivity. }
  assert (I0 : invocations w0 = invocations w ++ [Invocation request T a at_wait_lcp]).
  { subst w0. rewrite animateBadges_invocations, Hpoor. reflexivity. }
  cbn [step].
  destruct (timer_metric_current w0 i request T a _ "lcp" (value (lcp m)) at_wait_fid H0)
    as (H1 & T1 & _ & I1 & C1 & O1); [unfold metric_steps; rewrite !elem_of_cons; tauto |].
  destruct (timer_metric_current _ i request T a _ "fid" (value (fid m)) at_wait_cls H1)
    as (H2 & T2 & _ & I2 & C2 & O2); [unfold metric_steps; rewrite !elem_of_cons; tauto |].
  destruct (timer_metric_current _ i request T a _ "cls" (value (cls m)) at_wait_loop H2)
    as (H3 & T3 & _ & I3 & C3 & O3); [unfold metric_steps; rewrite !elem_of_cons; tauto |].
  destruct (timer_loop_current _ i request T a H3) as (H4 & T4 & _ & I4 & C4 & O4).
  destruct H4 as [H4 _].
  rewrite (tabs_get_reenters _ i request T a H4) by congruence.
  assert (L4 : length (invocations (on_timer i (on_timer i (on_timer i (on_timer i w0)))))
               = S i).
  { rewrite I4, length_insert, I3, length_insert, I2, length_insert, I1,
      length_insert, I0, length_app. cbn [length]. lia. }
  split.
  - fields. rewrite animateBadges_trace, Hpoor, L4.
    rewrite T4, T3, T2, T1, T0, C4, C3, C2, C1, C0.
    rewrite <- !app_assoc. reflexivity.
  - fields. rewrite animateBadges_invocations, Hpoor, C4, C3, C2, C1, C0.
    rewrite I4, I3, I2, I1, I0, !list_insert_insert_eq.
    rewrite insert_app_l.
    + subst i. rewrite list_insert_insert_eq.
      rewrite (insert_app_r_alt (invocations w)) by lia.
      rewrite Nat.sub_diag. cbn. rewrite <- ?app_assoc. reflexivity.
    + rewrite length_insert, length_app. cbn. lia.
Qed.

Lemma POOR_cycle_in_order_witness :
  trace (run [timer 0; timer 0; timer 0; timer 0; tabs_get_reply 0]
             (animateBadges slow_page 7 (init {[7]}))) =
    map (by_invocation 0)
      [ table_set 7 0;
        call_badgeOverallPerf "POOR" 7;
        call_wait 2000; table_get 7; call_badgeMetric "lcp" 3000 7;
        call_wait 2000; table_get 7; call_badgeMetric "fid" 50 7;
        call_wait 2000; table_get 7; call_badgeMetric "cls" 0.05 7;
        call_wait 2000; table_get 7; call_doesTabExist 7 ] ++
    map (by_invocation 1)
      [ table_set 7 1;
        call_badgeOverallPerf "POOR" 7;
        call_wait 2000 ].
Proof.
  refine (proj1 (POOR_cycle_in_order (init {[7]}) slow_page 7 eq_refl _)).
  apply (bool_decide_unpack _). vm_compute. reflexivity.
Defined.

(** ** Who filters the passing metrics *)

(** C6 (as the code has it): the sequencer does not look at the value.
    At each of the three metric steps an invocation that is still
    current calls [badgeMetric] with the value of the request, whatever
    it is; the filter sits inside [badgeMetric], whose callback makes no
    [chrome.action] call for a value at or below the threshold. *)
Theorem badgeMetric_called_whatever_the_value
    (w : world) (i : nat) (request : request_t) (T : Z) (a : N)
    (p : point) (metric : string) (v : float) (next : point) :
  current_at w i request T a p ->
  (p, metric, v, next) ∈ metric_steps (metrics request) ->
  let w' := on_timer i w in
  trace w' = trace w ++
    map (by_invocation i) [table_get T; call_badgeMetric metric v T; call_wait delay] /\
  queries w' = queries w ++ [cb_badgeMetric metric v T] /\
  (forall threshold tabs,
      (metric, threshold) ∈ thresholds ->
      (v <=? threshold)%float = true ->
      default [] (run_callback (cb_badgeMetric metric v T) tabs) = []).
Proof.
  intros Hcur Hin w'.
  destruct (timer_metric_current w i request T a p metric v next Hcur Hin)
    as (_ & Htrace & Hq & _).
  split; [exact Htrace |]. split; [exact Hq |].
  intros threshold tabs Hth Hle. cbn [run_callback].
  now apply badgeMetric_passing with (threshold := threshold).
Qed.

Lemma badgeMetric_called_whatever_the_value_witness :
  let w := run [message slow_page 7; timer 0] (init {[7]}) in
  trace (on_timer 0 w) = trace w ++
    map (by_invocation 0) [table_get 7; call_badgeMetric "fid" 50 7; call_wait delay] /\
  default [] (run_callback (cb_badgeMetric "fid" 50 7) []) = [].
Proof.
  intros w.
  destruct (badgeMetric_called_whatever_the_value w 0 slow_page 7 0
              at_wait_fid "fid" 50 at_wait_cls) as (Htrace & _ & Hfilter).
  - split; reflexivity.
  - unfold metric_steps. rewrite !elem_of_cons. right. left. reflexivity.
  - split; [exact Htrace |].
    apply (Hfilter FID_THRESHOLD []); [| reflexivity].
    unfold thresholds. rewrite !elem_of_cons. right. left. reflexivity.
Defined.

(** C6, the claim as worded fails: fid 50 does not exceed 100, and the
    sequencer calls [badgeMetric] for it. *)
Lemma badgeMetric_called_for_passing_fid :
  exceeds 50 FID_THRESHOLD = false /\
  effects_of 0 (trace (run [message slow_page 7; timer 0; timer 0] (init {[7]}))) =
    [ table_set 7 0; call_badgeOverallPerf "POOR" 7;
      call_wait 2000; table_get 7; call_badgeMetric "lcp" 3000 7;
      call_wait 2000; table_get 7; call_badgeMetric "fid" 50 7;
      call_wait 2000 ].
Proof. split; reflexivity. Qed.

(** ** Supersession *)

(** An invocation that wakes from a wait and finds another generation in
    the table reads the table and returns: it calls no renderer, queues
    nothing and starts no timer. *)
Lemma superseded_returns (w : world) (i : nat) (inv : invocation) :
  invocations w !! i = Some inv ->
  inv_at inv ∈ [at_wait_lcp; at_wait_fid; at_wait_cls; at_wait_loop] ->
  animationsByTabId w !! inv_tabId inv <> Some (inv_animationId inv) ->
  let w' := on_timer i w in
  trace w' = trace w ++ [by_invocation i (table_get (inv_tabId inv))] /\
  queries w' = queries w /\
  invocations w' = invocations (Upd.move i inv returned w).
Proof.
  intros Hinv Hat Hstale w'. subst w'.
  pose proof (superseded_stale w _ _ Hstale) as Hs.
  unfold on_timer. rewrite Hinv.
  rewrite !elem_of_cons, elem_of_nil in Hat.
  destruct Hat as [H | [H | [H | [H | []]]]]; rewrite H;
    rewrite ?metric_step_trace, ?metric_step_queries, ?metric_step_invocations,
      ?loop_step_trace, ?loop_step_invocations, Hs;
    repeat split; try apply app_nil_r.
  apply (loop_step_rest i inv w).
Qed.

(** The answer of [doesTabExist] resumes an invocation whatever the
    table holds by then: even when another generation has been
    registered for its tab in the meantime, it registers a fresh
    generation for its own request and draws the overall badge. *)
Lemma reentry_ignores_supersession
    (w : world) (i : nat) (request : request_t) (T : Z) (a : N) :
  invocations w !! i = Some (Invocation request T a at_doesTabExist) ->
  T ∈ openTabs w ->
  animationsByTabId w !! T <> Some a ->
  let w' := step w (tabs_get_reply i) in
  animationsByTabId w' !! T = Some (globalAnimationId w) /\
  invocations w' !! length (invocations w) =
    Some (Invocation request T (globalAnimationId w)
            (if String.eqb (passesAllThresholds request) "POOR"
             then at_wait_lcp else returned)) /\
  exists rest,
    trace w' = trace w ++
      by_invocation (length (invocations w)) (table_set T (globalAnimationId w)) ::
      by_invocation (length (invocations w))
        (call_badgeOverallPerf (passesAllThresholds request) T) :: rest.
Proof.
  intros Hinv Hopen _ w'. subst w'. cbn [step].
  rewrite (tabs_get_reenters w i request T a Hinv Hopen). fields.
  rewrite animateBadges_table, animateBadges_invocations, animateBadges_trace.
  split; [apply lookup_insert_eq |]. split.
  - rewrite list_lookup_insert_ne.
    + now apply list_lookup_middle.
    + apply lookup_lt_Some in Hinv. lia.
  - eexists. reflexivity.
Qed.

(** C1, as the code runs it.  A failing page is animated on tab 7; its
    invocation passes the check after the fourth wait and awaits
    [doesTabExist].  A new measurement of the tab arrives and registers
    generation 1.  The answer of [doesTabExist] then resumes the old
    invocation, which re-enters [animateBadges] without reading the
    table: generation 2 is registered for the old request.  The run of
    the new measurement finds itself superseded at its first check and
    returns without calling [badgeMetric] once; the old request is
    drawn again and again. *)
Theorem stale_loop_overrides_newer_request :
  let evs :=
    [ message slow_page 7; timer 0; timer 0; timer 0; timer 0;
      message slower_page 7;
      tabs_get_reply 0;
      timer 1;
      timer 2; timer 2; timer 2 ] in
  let w := run evs (init {[7]}) in
  animationsByTabId w !! 7 = Some 2%N /\
  invocations w =
    [ Invocation slow_page 7 0 returned;
      Invocation slower_page 7 1 returned;
      Invocation slow_page 7 2 at_wait_loop ] /\
  effects_of 1 (trace w) =
    [ table_set 7 1; call_badgeOverallPerf "POOR" 7; call_wait 2000; table_get 7 ] /\
  render_calls (since 1 (trace w)) =
    [ (1%nat, call_badgeOverallPerf "POOR" 7);
      (2%nat, call_badgeOverallPerf "POOR" 7);
      (2%nat, call_badgeMetric "lcp" 3000 7);
      (2%nat, call_badgeMetric "fid" 50 7);
      (2%nat, call_badgeMetric "cls" 0.05 7) ].
Proof. repeat split; reflexivity. Qed.

(** The same race seen on the badge: the last measurement said 4 s, the
    tab keeps showing the 3 s of the measurement before it. *)
Example stale_loop_on_screen :
  let evs :=
    [ message slow_page 7; timer 0; timer 0; timer 0; timer 0;
      message slower_page 7;
      tabs_get_reply 0;
      timer 1;
      timer 2;
      tabs_query_reply []; tabs_query_reply []; tabs_query_reply [];
      tabs_query_reply []; tabs_query_reply []; tabs_query_reply [];
      tabs_query_reply [] ] in
  let w := run evs (init {[7]}) in
  queries w = [] /\
  badge_of (shown w) 7 =
    Badge (Some "../../icons/slow128w-lcp.png"%string) (Some (Chars "3.00"))
          (Some "#000"%string).
Proof. split; reflexivity. Qed.

(** * Further properties *)

(** ** hashCode: the hash as a polynomial *)

Lemma polynomial_from_app (hash : Z) (s t : list Z) :
  polynomial_from hash (s ++ t) = polynomial_from (polynomial_from hash s) t.
Proof. unfold polynomial_from. apply fold_left_app. Qed.

Lemma polynomial_from_closed (s : list Z) (hash : Z) :
  polynomial_from hash s = hash * 31 ^ Z.of_nat (length s) + polynomial s.
Proof.
  unfold polynomial. revert hash.
  induction s as [|c s IH] using rev_ind; intros hash.
  - cbn. lia.
  - rewrite !polynomial_from_app, length_app, Nat2Z.inj_add. cbn.
    rewrite (IH hash), (IH 0), Z.pow_add_r by lia. lia.
Qed.

Lemma polynomial_app (s t : list Z) :
  polynomial (s ++ t) = polynomial s * 31 ^ Z.of_nat (length t) + polynomial t.
Proof.
  unfold polynomial at 1. rewrite polynomial_from_app.
  now rewrite polynomial_from_closed.
Qed.

Lemma hashCode_loop_congruent (str : list Z) (hash : Z) :
  exists k, hashCode_loop hash str = polynomial_from hash str + k * 2 ^ 32.
Proof.
  revert hash. induction str as [|c rest IH]; intros hash.
  - exists 0. cbn. lia.
  - cbn [hashCode_loop]. rewrite hashCode_step_rolling. unfold rolling_hash_step.
    destruct (ToInt32_offset (hash * 31 + c)) as [k1 H1].
    destruct (IH (Int32.ToInt32 (hash * 31 + c))) as [k2 H2].
    exists (k2 + k1 * 31 ^ Z.of_nat (length rest)).
    rewrite H2, H1.
    change (polynomial_from hash (c :: rest)) with (polynomial_from (hash * 31 + c) rest).
    rewrite !polynomial_from_closed. lia.
Qed.

Lemma hashCode_loop_wraps_once (str : list Z) (hash : Z) :
  Int32.in_range hash ->
  hashCode_loop hash str = Int32.ToInt32 (polynomial_from hash str).
Proof.
  intros Hh. destruct (hashCode_loop_congruent str hash) as [k Hk].
  rewrite <- (ToInt32_fixed (hashCode_loop hash str))
    by now apply hashCode_loop_in_range.
  apply ToInt32_congruent with (k := k). exact Hk.
Qed.

Lemma hashCode_nonempty (str : list Z) :
  str <> [] -> hashCode str = Number_toString (Int32.ToInt32 (polynomial str)).
Proof.
  intros Hne. unfold hashCode.
  destruct str as [|c rest]; [congruence |].
  cbn [length]. rewrite Nat2Z.inj_succ.
  destruct (Z.eqb_spec (Z.succ (Z.of_nat (length rest))) 0) as [E|_]; [lia |].
  rewrite hashCode_loop_wraps_once; [reflexivity |].
  unfold Int32.in_range. lia.
Qed.

(** X1: wrapping at every step is wrapping once: the key of a non-empty
    string [c0 c1 ... cn] is the decimal form of
    [c0*31^n + c1*31^(n-1) + ... + cn] reduced to a signed 32-bit
    integer, and the hash of a concatenation is obtained from the two
    parts' polynomials. *)
Theorem hashCode_wraps_once (s t : list Z) :
  s ++ t <> [] ->
  hashCode (s ++ t) =
    Number_toString
      (Int32.ToInt32 (polynomial s * 31 ^ Z.of_nat (length t) + polynomial t)).
Proof.
  intros Hne. rewrite hashCode_nonempty by exact Hne. now rewrite polynomial_app.
Qed.

Lemma hashCode_wraps_once_witness :
  hashCode (code_units_of "https://" ++ code_units_of "a.io") =
    Number_toString
      (Int32.ToInt32 (polynomial (code_units_of "https://") * 31 ^ 4 +
                      polynomial (code_units_of "a.io"))).
Proof.
  apply (hashCode_wraps_once (code_units_of "https://") (code_units_of "a.io")).
  discriminate.
Defined.

(** ** hashCode: reading a key back *)

Lemma to_int_not_nil (z : Z) :
  Z.to_int z <> Decimal.Pos Decimal.Nil /\ Z.to_int z <> Decimal.Neg Decimal.Nil.
Proof.
  destruct z as [|p|p]; cbn; split; try discriminate;
    intros H; injection H as H;
    pose proof (DecimalPos.Unsigned.to_uint_nonnil p); contradiction.
Qed.

Lemma parse_key_toString (z : Z) : parse_key (Number_toString z) = Some z.
Proof.
  unfold parse_key, Number_toString.
  destruct (to_int_not_nil z) as [H1 H2].
  rewrite NilZero.isi by assumption. cbn. now rewrite DecimalZ.of_to.
Qed.

Lemma Number_toString_inj (z z' : Z) :
  Number_toString z = Number_toString z' -> z = z'.
Proof.
  intros H. apply (f_equal parse_key) in H.
  rewrite !parse_key_toString in H. congruence.
Qed.

Lemma Number_toString_not_empty (z : Z) : Number_toString z <> ""%string.
Proof.
  intros H. apply (f_equal parse_key) in H.
  rewrite parse_key_toString in H. discriminate.
Qed.

(** X2: a key reads back as the hash: the key of a non-empty string is
    never empty, and it parses to the 32-bit hash of the string, an
    integer between [-2^31] and [2^31 - 1]; the key of the empty string
    is the only one that does not parse. *)
Theorem hashCode_reads_back (str : list Z) :
  parse_key (hashCode []) = None /\
  (str <> [] ->
   hashCode str <> ""%string /\
   parse_key (hashCode str) = Some (rolling_hash str) /\
   - 2 ^ 31 <= rolling_hash str < 2 ^ 31).
Proof.
  split; [reflexivity |]. intros Hne.
  assert (Hkey : hashCode str = Number_toString (rolling_hash str)).
  { unfold hashCode, rolling_hash. destruct str as [|c rest]; [congruence |].
    cbn [length]. rewrite Nat2Z.inj_succ.
    destruct (Z.eqb_spec (Z.succ (Z.of_nat (length rest))) 0) as [E|_]; [lia |].
    now rewrite hashCode_loop_rolling. }
  rewrite Hkey. split; [apply Number_toString_not_empty |].
  split; [apply parse_key_toString |].
  unfold rolling_hash. rewrite <- hashCode_loop_rolling.
  apply hashCode_loop_in_range. unfold Int32.in_range. lia.
Qed.

Lemma hashCode_reads_back_witness :
  parse_key (hashCode (code_units_of "https://example.com/")) = Some (-1856498399).
Proof.
  destruct (hashCode_reads_back (code_units_of "https://example.com/")) as [_ H].
  destruct H as (_ & Hparse & _); [discriminate |].
  rewrite Hparse. reflexivity.
Defined.

Lemma ToInt32_eq_iff (a b : Z) :
  Int32.ToInt32 a = Int32.ToInt32 b <-> (a - b) mod 2 ^ 32 = 0.
Proof.
  destruct (ToInt32_offset a) as [ka Ha]. destruct (ToInt32_offset b) as [kb Hb].
  split.
  - intros H. replace (a - b) with ((kb - ka) * 2 ^ 32) by lia.
    apply Z_mod_mult.
  - intros H. apply Z.mod_divide in H; [| lia]. destruct H as [k Hk].
    apply ToInt32_congruent with (k := k). lia.
Qed.

(** X3: two non-empty strings get the same key exactly when their
    polynomials differ by a multiple of [2^32]. *)
Theorem hashCode_collides_iff (str str' : list Z) :
  str <> [] -> str' <> [] ->
  (hashCode str = hashCode str' <->
   (polynomial str - polynomial str') mod 2 ^ 32 = 0).
Proof.
  intros Hs Hs'. rewrite !hashCode_nonempty by assumption.
  rewrite <- ToInt32_eq_iff. split.
  - apply Number_toString_inj.
  - now intros ->.
Qed.

Lemma hashCode_collides_iff_witness :
  hashCode (code_units_of "Aa") = hashCode (code_units_of "BB").
Proof.
  apply (hashCode_collides_iff (code_units_of "Aa") (code_units_of "BB"));
    [discriminate | discriminate | reflexivity].
Defined.

(** X4: a collision survives any context: when two strings of the same
    length have the same key, putting both between the same prefix and
    the same suffix gives the same key again. *)
Theorem hashCode_collision_in_context (u v p q : list Z) :
  length u = length v ->
  hashCode u = hashCode v ->
  hashCode (p ++ u ++ q) = hashCode (p ++ v ++ q).
Proof.
  intros Hlen Hkey.
  destruct (decide (u = [])) as [->|Hu].
  { destruct v; [reflexivity | discriminate]. }
  assert (Hv : v <> []) by (intros ->; destruct u; [congruence | discriminate]).
  assert (Hmod : (polynomial u - polynomial v) mod 2 ^ 32 = 0)
    by now apply hashCode_collides_iff.
  rewrite !hashCode_nonempty
    by (intros H; apply app_eq_nil in H as [_ H]; apply app_eq_nil in H as [H _];
        congruence).
  f_equal. apply ToInt32_eq_iff.
  rewrite !polynomial_app, !length_app, Hlen.
  apply Z.mod_divide in Hmod; [| lia]. destruct Hmod as [k Hk].
  apply Z.mod_divide; [lia |].
  exists (k * 31 ^ Z.of_nat (length q)).
  replace (polynomial u) with (polynomial v + k * 2 ^ 32) by lia.
  lia.
Qed.

Lemma hashCode_collision_in_context_witness :
  hashCode (code_units_of "https://a.io/" ++ code_units_of "Aa" ++ code_units_of "/x") =
  hashCode (code_units_of "https://a.io/" ++ code_units_of "BB" ++ code_units_of "/x").
Proof.
  apply (hashCode_collision_in_context (code_units_of "Aa") (code_units_of "BB"));
    reflexivity.
Defined.

(** ** hashCode: every key can be hit *)

Lemma base31_length (k : nat) (n : Z) : length (base31 k n) = k.
Proof.
  revert n. induction k as [|k IH]; intros n; [reflexivity |].
  cbn [base31]. rewrite length_app, IH. cbn. lia.
Qed.

Lemma base31_digits (k : nat) (n : Z) :
  Forall (fun c => 0 <= c < 31) (base31 k n).
Proof.
  revert n. induction k as [|k IH]; intros n; cbn [base31].
  - constructor.
  - apply Forall_app. split; [apply IH |].
    constructor; [| constructor].
    apply Z.mod_pos_bound. lia.
Qed.

Lemma base31_polynomial (k : nat) (n : Z) :
  0 <= n < 31 ^ Z.of_nat k -> polynomial (base31 k n) = n.
Proof.
  revert n. induction k as [|k IH]; intros n Hn.
  - cbn in *. lia.
  - cbn [base31]. rewrite polynomial_app. cbn [length].
    rewrite Nat2Z.inj_succ, Z.pow_succ_r in Hn by lia.
    rewrite IH.
    + change (polynomial [n mod 31]) with (0 * 31 + n mod 31).
      change (31 ^ Z.of_nat 1) with 31.
      pose proof (Z.div_mod n 31). lia.
    + split; [apply Z.div_pos; lia |].
      apply Z.div_lt_upper_bound; lia.
Qed.

(** X5: every 32-bit key can be hit, from whatever start: for each
    prefix and each integer [target] between [-2^31] and [2^31 - 1]
    there are seven code units below 31 that, appended to the prefix,
    give the key of [target]. *)
Theorem hashCode_hits_every_key (prefix : list Z) (target : Z) :
  - 2 ^ 31 <= target < 2 ^ 31 ->
  let suffix := suffix_for prefix target in
  length suffix = 7%nat /\
  Forall (fun c => 0 <= c < 31) suffix /\
  hashCode (prefix ++ suffix) = Number_toString target.
Proof.
  intros Ht suffix. subst suffix. unfold suffix_for.
  set (n := (target - polynomial prefix * 31 ^ 7) mod 2 ^ 32).
  assert (Hn : 0 <= n < 2 ^ 32) by (apply Z.mod_pos_bound; lia).
  split; [apply base31_length |]. split; [apply base31_digits |].
  rewrite hashCode_nonempty.
  - f_equal. rewrite polynomial_app, base31_length, base31_polynomial.
    + transitivity (Int32.ToInt32 target); [| now apply ToInt32_fixed].
      apply ToInt32_eq_iff. change (Z.of_nat 7) with 7.
      subst n. rewrite (Z.mod_eq (target - polynomial prefix * 31 ^ 7)) by lia.
      apply Z.mod_divide; [lia |].
      exists (- ((target - polynomial prefix * 31 ^ 7) / 2 ^ 32)). lia.
    + change (31 ^ Z.of_nat 7) with 27512614111. lia.
  - intros H. apply (f_equal (@length Z)) in H.
    rewrite length_app, base31_length in H. cbn in H. lia.
Qed.

Lemma hashCode_hits_every_key_witness :
  hashCode (code_units_of "https://example.com/" ++
            suffix_for (code_units_of "https://example.com/") 7) = "7"%string.
Proof.
  apply (hashCode_hits_every_key (code_units_of "https://example.com/") 7). lia.
Defined.

(** ** The renderers: which badge they touch *)

Lemma perform_as_change (shown : gmap Z badge) (c : action_call) :
  perform shown c = <[call_tab c := call_change c (badge_of shown (call_tab c))]> shown.
Proof. now destruct c. Qed.

Lemma perform_other_tab (shown : gmap Z badge) (c : action_call) (t' : Z) :
  t' <> call_tab c -> badge_of (perform shown c) t' = badge_of shown t'.
Proof.
  intros Hne. rewrite perform_as_change, badge_of_insert.
  destruct (decide (call_tab c = t')); [congruence | reflexivity].
Qed.

Lemma perform_all_other_tab (cs : list action_call) (shown : gmap Z badge) (t t' : Z) :
  Forall (fun c => call_tab c = t) cs -> t' <> t ->
  badge_of (perform_all shown cs) t' = badge_of shown t'.
Proof.
  revert shown. induction cs as [|c cs IH]; intros shown Hall Hne; [reflexivity |].
  inversion Hall as [|? ? Hc Hcs]; subst.
  cbn [perform_all fold_left]. change (fold_left perform cs ?s) with (perform_all s cs).
  rewrite IH by assumption. now apply perform_other_tab.
Qed.

Lemma badgeOverallPerf_targets (badgeCategory : string) (tabid : Z) (tabs : list Z) (t : Z) :
  currentTab tabid tabs = Some t ->
  Forall (fun c => call_tab c = t) (default [] (badgeOverallPerf badgeCategory tabid tabs)).
Proof.
  intros Ht. unfold badgeOverallPerf. rewrite Ht. cbn [default].
  destruct (String.eqb badgeCategory "POOR"); [| destruct (String.eqb badgeCategory "GOOD")];
    repeat constructor.
Qed.

Lemma badgeMetric_targets (metric : string) (v : float) (tabid : Z) (tabs : list Z) (t : Z) :
  currentTab tabid tabs = Some t ->
  Forall (fun c => call_tab c = t) (default [] (badgeMetric metric v tabid tabs)).
Proof.
  intros Ht. unfold badgeMetric. rewrite Ht.
  repeat match goal with
         | |- context [if ?b then _ else _] => destruct b
         end; repeat constructor.
Qed.

Lemma run_callback_unresolved (cb : query_callback) (tabid : Z) (tabs : list Z) :
  (exists badgeCategory, cb = cb_badgeOverallPerf badgeCategory tabid) \/
  (exists metric v, cb = cb_badgeMetric metric v tabid) ->
  currentTab tabid tabs = None -> run_callback cb tabs = None.
Proof.
  intros [[badgeCategory ->] | (metric & v & ->)] Hnone; cbn [run_callback].
  - unfold badgeOverallPerf. now rewrite Hnone.
  - unfold badgeMetric. now rewrite Hnone.
Qed.

(** X6: a renderer draws on one tab only.  Whatever the category, the
    metric and the value, the calls of [badgeOverallPerf] and of
    [badgeMetric] leave the icon, text and colour of every tab other
    than the resolved one as they were; and when no tab is resolved
    (tab id 0 and an empty query result) the callback throws before any
    call, so nothing changes at all. *)
Theorem renderers_touch_one_tab
    (badgeCategory metric : string) (v : float) (tabid : Z) (tabs : list Z)
    (shown : gmap Z badge) :
  (forall t t',
      currentTab tabid tabs = Some t -> t' <> t ->
      badge_of (perform_all shown (default [] (badgeOverallPerf badgeCategory tabid tabs))) t'
        = badge_of shown t' /\
      badge_of (perform_all shown (default [] (badgeMetric metric v tabid tabs))) t'
        = badge_of shown t') /\
  (currentTab tabid tabs = None ->
      badgeOverallPerf badgeCategory tabid tabs = None /\
      badgeMetric metric v tabid tabs = None /\
      perform_all shown (default [] (badgeOverallPerf badgeCategory tabid tabs)) = shown /\
      perform_all shown (default [] (badgeMetric metric v tabid tabs)) = shown).
Proof.
  split.
  - intros t t' Ht Hne. split.
    + apply perform_all_other_tab with (t := t); [| exact Hne].
      now apply badgeOverallPerf_targets.
    + apply perform_all_other_tab with (t := t); [| exact Hne].
      now apply badgeMetric_targets.
  - intros Hnone.
    assert (H1 : badgeOverallPerf badgeCategory tabid tabs = None)
      by (unfold badgeOverallPerf; now rewrite Hnone).
    assert (H2 : badgeMetric metric v tabid tabs = None)
      by (unfold badgeMetric; now rewrite Hnone).
    rewrite H1, H2. now repeat split.
Qed.

Lemma renderers_touch_one_tab_witness :
  badge_of (perform_all ∅ (default [] (badgeMetric "lcp" 3000 7 [9]))) 9 = no_badge /\
  badgeMetric "lcp" 3000 0 [] = None.
Proof.
  destruct (renderers_touch_one_tab "POOR" "lcp" 3000 7 [9] ∅) as [Hother _].
  destruct (renderers_touch_one_tab "POOR" "lcp" 3000 0 [] ∅) as [_ Hnone].
  split.
  - apply (Hother 7 9); [reflexivity | lia].
  - apply Hnone. reflexivity.
Defined.

(** X7: the tab the renderers draw on.  A non-zero tab id is used as it
    is, whatever the query answers; tab id 0 stands for the first tab
    of the answer, so that drawing for 0 is drawing for that tab; and
    with tab id 0 and an empty answer nothing is drawn. *)
Theorem tab_zero_means_the_active_tab
    (badgeCategory metric : string) (v : float) (tabid t : Z) (tabs rest : list Z) :
  (tabid <> 0 ->
     badgeOverallPerf badgeCategory tabid tabs = badgeOverallPerf badgeCategory tabid [] /\
     badgeMetric metric v tabid tabs = badgeMetric metric v tabid []) /\
  (t <> 0 ->
     badgeOverallPerf badgeCategory 0 (t :: rest) = badgeOverallPerf badgeCategory t tabs /\
     badgeMetric metric v 0 (t :: rest) = badgeMetric metric v t tabs) /\
  badgeOverallPerf badgeCategory 0 [] = None /\
  badgeMetric metric v 0 [] = None.
Proof.
  assert (Hnz : forall x l, x <> 0 -> currentTab x l = Some x).
  { intros x l Hx. unfold currentTab. now destruct (Z.eqb_spec x 0). }
  split; [| split; [| split; reflexivity]].
  - intros Hne. unfold badgeOverallPerf, badgeMetric.
    now rewrite (Hnz tabid tabs Hne), (Hnz tabid [] Hne).
  - intros Hne. unfold badgeOverallPerf, badgeMetric.
    rewrite (Hnz t tabs Hne). split; reflexivity.
Qed.

Lemma tab_zero_means_the_active_tab_witness :
  badgeOverallPerf "POOR" 0 [7; 9] = badgeOverallPerf "POOR" 7 [] /\
  badgeMetric "cls" 0.3 7 [9] = badgeMetric "cls" 0.3 7 [].
Proof.
  destruct (tab_zero_means_the_active_tab "POOR" "cls" 0.3 7 7 [] [9])
    as (_ & Hzero & _).
  destruct (tab_zero_means_the_active_tab "POOR" "cls" 0.3 7 7 [9] [9])
    as (Hnz & _).
  split.
  - apply Hzero. lia.
  - apply Hnz. lia.
Defined.

(** X8: a metric name other than lcp, fid and cls (inp, for one, whose
    threshold the file declares) passes every guard, whatever its
    value: [badgeMetric] then puts the default icon back and empties
    the badge text and the background colour. *)
Theorem badgeMetric_unknown_metric
    (metric : string) (v : float) (tabid : Z) (tabs : list Z) (t : Z) :
  metric <> "lcp"%string -> metric <> "fid"%string -> metric <> "cls"%string ->
  currentTab tabid tabs = Some t ->
  badgeMetric metric v tabid tabs =
    Some [ setIcon "../../icons/default128w.png" t;
           setBadgeBackgroundColor "" t;
           setBadgeText (Chars "") t ].
Proof.
  intros Hl Hf Hc Ht. unfold badgeMetric. rewrite Ht.
  apply String.eqb_neq in Hl, Hf, Hc. now rewrite Hl, Hf, Hc.
Qed.

Lemma badgeMetric_unknown_metric_witness :
  badgeMetric "inp" 500 7 [] =
    Some [ setIcon "../../icons/default128w.png" 7;
           setBadgeBackgroundColor "" 7;
           setBadgeText (Chars "") 7 ].
Proof.
  apply (badgeMetric_unknown_metric "inp" 500 7 [] 7);
    [discriminate | discriminate | discriminate | reflexivity].
Defined.

(** ** The renderers: drawing twice *)








(** X10: [badgeOverallPerf] never sets a background colour: whatever the
    category, every tab keeps the colour it had, so the black of an
    earlier metric frame stays under every later overall badge. *)
Theorem badgeOverallPerf_keeps_colour
    (badgeCategory : string) (tabid : Z) (tabs : list Z)
    (shown : gmap Z badge) (t' : Z) :
  badgeBackgroundColor
    (badge_of (perform_all shown (default [] (badgeOverallPerf badgeCategory tabid tabs))) t')
  = badgeBackgroundColor (badge_of shown t').
Proof.
  assert (Hicon : forall s path t,
             badgeBackgroundColor (badge_of (perform s (setIcon path t)) t') =
             badgeBackgroundColor (badge_of s t')).
  { intros s path t. apply (perform_setIcon s path t t'). }
  assert (Htext : forall s txt t,
             badgeBackgroundColor (badge_of (perform s (setBadgeText txt t)) t') =
             badgeBackgroundColor (badge_of s t')).
  { intros s txt t. cbn [perform]. rewrite badge_of_insert.
    destruct (decide (t = t')) as [->|]; reflexivity. }
  unfold badgeOverallPerf. destruct (currentTab tabid tabs) as [t|]; [| reflexivity].
  destruct (String.eqb badgeCategory "POOR"); [| destruct (String.eqb badgeCategory "GOOD")];
    cbn -[perform badge_of]; rewrite ?Htext, ?Hicon; reflexivity.
Qed.

Example black_stays_under_the_overall_badge :
  let frame := default [] (badgeMetric "cls" 0.3 7 []) in
  let poor := default [] (badgeOverallPerf "POOR" 7 []) in
  badge_of (perform_all (perform_all ∅ frame) poor) 7 =
    Badge (Some "../../icons/slow128w.png"%string) (Some (Chars ""))
          (Some "#000"%string).
Proof. reflexivity. Qed.

(** ** The table over time *)

Lemma step_table (w : world) (ev : event) (T : Z) :
  animationsByTabId (step w ev) !! T = animationsByTabId w !! T \/
  animationsByTabId (step w ev) !! T = Some (globalAnimationId w).
Proof.
  assert (Hstart : forall request tabId,
             animationsByTabId (animateBadges request tabId w) !! T =
               animationsByTabId w !! T \/
             animationsByTabId (animateBadges request tabId w) !! T =
               Some (globalAnimationId w)).
  { intros request tabId. rewrite animateBadges_table, lookup_insert.
    destruct (decide (tabId = T)); auto. }
  destruct ev as [request tabId | i | i | tabs | t | t]; cbn [step]; auto.
  - unfold on_timer. destruct (invocations w !! i) as [inv|]; [| auto].
    destruct (inv_at inv); auto.
    + left. now rewrite (proj1 (proj2 (metric_step_rest i inv w _ _ _))).
    + left. now rewrite (proj1 (proj2 (metric_step_rest i inv w _ _ _))).
    + left. now rewrite (proj1 (proj2 (metric_step_rest i inv w _ _ _))).
    + left. now rewrite (proj1 (proj2 (loop_step_rest i inv w))).
  - unfold on_tabs_get. destruct (invocations w !! i) as [inv|]; [| auto].
    destruct (inv_at inv); auto.
    destruct (negb _); fields; auto.
  - unfold on_tabs_query. destruct (queries w); auto.
Qed.

Lemma table_up_to_counter (w : world) (T : Z) (g : N) :
  consistent w -> animationsByTabId w !! T = Some g -> (g <= globalAnimationId w)%N.
Proof.
  intros Hw Hg. rewrite (table_is_last w Hw) in Hg.
  apply last_Some_elem_of in Hg. unfold generations_of in Hg.
  apply list_elem_of_fmap in Hg. destruct Hg as ([T' g'] & -> & Hin).
  apply list_elem_of_filter in Hin. destruct Hin as [_ Hin].
  pose proof (registered_up_to_counter w Hw) as Hall.
  rewrite Forall_forall in Hall. exact (Hall _ Hin).
Qed.

Lemma table_keeps_growing (evs : list event) (w : world) (T : Z) (g : N) :
  consistent w -> animationsByTabId w !! T = Some g ->
  exists g', animationsByTabId (run evs w) !! T = Some g' /\ (g <= g')%N.
Proof.
  revert w g. induction evs as [|ev evs IH]; intros w g Hw Hg.
  - exists g. split; [exact Hg | lia].
  - rewrite run_cons.
    pose proof (table_up_to_counter w T g Hw Hg) as Hlt.
    destruct (step_table w ev T) as [H|H].
    + rewrite Hg in H.
      destruct (IH (step w ev) g (consistent_step w ev Hw) H) as (g' & Hg' & Hle).
      exists g'. now split.
    + destruct (IH (step w ev) _ (consistent_step w ev Hw) H) as (g' & Hg' & Hle).
      exists g'. split; [exact Hg' | lia].
Qed.

Lemma stale_stays_stale (evs : list event) (w : world) (T : Z) (a g : N) :
  consistent w -> animationsByTabId w !! T = Some g -> (a < g)%N ->
  animationsByTabId (run evs w) !! T <> Some a.
Proof.
  intros Hw Hg Hlt.
  destruct (table_keeps_growing evs w T g Hw Hg) as (g' & -> & Hle).
  intros E. injection E as E. lia.
Qed.

Lemma table_covers_ext (w w' : world) :
  invocations w' = invocations w -> animationsByTabId w' = animationsByTabId w ->
  table_covers w -> table_covers w'.
Proof. unfold table_covers. intros -> ->. auto. Qed.

Lemma table_covers_move (i : nat) (inv : invocation) (p : point) (w : world) :
  invocations w !! i = Some inv -> table_covers w -> table_covers (Upd.move i inv p w).
Proof.
  intros Hinv Hcov j inv'. fields.
  intros [(-> & <- & _) | (_ & H)]%list_lookup_insert_Some.
  - cbn. now apply (Hcov j).
  - now apply (Hcov j).
Qed.

Lemma table_covers_animateBadges (request : request_t) (T : Z) (w : world) :
  consistent w -> table_covers w -> table_covers (animateBadges request T w).
Proof.
  intros Hw Hcov j inv. rewrite animateBadges_invocations, animateBadges_table.
  intros [(_ & H) | (-> & <-)]%lookup_snoc_Some.
  - rewrite lookup_insert. destruct (decide (T = inv_tabId inv)) as [E | E].
    + eexists. split; [reflexivity |]. now apply (consistent_tag w j).
    + now apply (Hcov j).
  - cbn. rewrite lookup_insert_eq. eexists. split; [reflexivity | lia].
Qed.

Lemma table_covers_step (w : world) (ev : event) :
  consistent w -> table_covers w -> table_covers (step w ev).
Proof.
  intros Hw Hcov.
  destruct ev as [request tabId | i | i | tabs | t | t]; cbn [step]; try exact Hcov.
  - now apply table_covers_animateBadges.
  - unfold on_timer. destruct (invocations w !! i) as [inv|] eqn:Hinv; [| exact Hcov].
    destruct (inv_at inv); try exact Hcov.
    + eapply table_covers_ext;
        [apply metric_step_invocations | apply (metric_step_rest i inv w) |].
      now apply table_covers_move.
    + eapply table_covers_ext;
        [apply metric_step_invocations | apply (metric_step_rest i inv w) |].
      now apply table_covers_move.
    + eapply table_covers_ext;
        [apply metric_step_invocations | apply (metric_step_rest i inv w) |].
      now apply table_covers_move.
    + eapply table_covers_ext;
        [apply loop_step_invocations | apply (loop_step_rest i inv w) |].
      now apply table_covers_move.
  - unfold on_tabs_get. destruct (invocations w !! i) as [inv|] eqn:Hinv; [| exact Hcov].
    destruct (inv_at inv); try exact Hcov.
    destruct (negb _).
    + now apply table_covers_move.
    + apply table_covers_move; [| now apply table_covers_animateBadges].
      rewrite animateBadges_invocations, lookup_app_l; [exact Hinv |].
      now apply lookup_lt_Some in Hinv.
  - unfold on_tabs_query. now destruct (queries w).
Qed.

Lemma table_covers_run (tabs0 : gset Z) (evs : list event) :
  table_covers (run evs (init tabs0)).
Proof.
  induction evs as [|ev evs IH] using rev_ind.
  - intros i inv H. cbn in H. now rewrite lookup_nil in H.
  - rewrite run_app. cbn [run fold_left]. apply table_covers_step; [| exact IH].
    apply consistent_run, consistent_init.
Qed.

(** X11: a superseded invocation is superseded for good.  In every
    state the event loop reaches, once the table holds another
    generation than an invocation's for its tab, no sequence of events
    brings that invocation's generation back into the table. *)
Theorem superseded_for_good
    (tabs0 : gset Z) (evs : list event) (i : nat) (inv : invocation)
    (later : list event) :
  let w := run evs (init tabs0) in
  invocations w !! i = Some inv ->
  superseded w (inv_tabId inv) (inv_animationId inv) = true ->
  superseded (run later w) (inv_tabId inv) (inv_animationId inv) = true.
Proof.
  intros w Hinv Hstale.
  assert (Hw : consistent w) by (apply consistent_run, consistent_init).
  destruct (table_covers_run tabs0 evs i inv Hinv) as (g & Hg & Hle).
  apply superseded_stale, (stale_stays_stale later w _ _ g Hw Hg).
  assert (g <> inv_animationId inv); [| lia].
  intros ->. pose proof (superseded_current _ _ _ Hg) as E.
  change (run evs (init tabs0)) with w in E. congruence.
Qed.

Lemma superseded_for_good_witness :
  let w := run [message slow_page 7; message fast_page 7] (init {[7]}) in
  superseded (run [message slower_page 8; timer 0; tabs_query_reply []] w) 7 0 = true.
Proof.
  intros w.
  apply (superseded_for_good {[7]} [message slow_page 7; message fast_page 7] 0
           (Invocation slow_page 7 0 at_wait_lcp)
           [message slower_page 8; timer 0; tabs_query_reply []]);
    reflexivity.
Defined.

(** X12: the table never forgets a tab, and a tab's generation never
    goes down: once a generation is registered for a tab, every later
    state holds for that tab this generation or a larger one; no event
    removes the entry, not even the removal of the tab. *)
Theorem table_never_forgets
    (tabs0 : gset Z) (evs : list event) (T : Z) (g : N) (later : list event) :
  let w := run evs (init tabs0) in
  animationsByTabId w !! T = Some g ->
  exists g', animationsByTabId (run later w) !! T = Some g' /\ (g <= g')%N.
Proof.
  intros w Hg. apply table_keeps_growing; [| exact Hg].
  apply consistent_run, consistent_init.
Qed.

Lemma table_never_forgets_witness :
  let w := run [message fast_page 7] (init {[7]}) in
  exists g', animationsByTabId (run [tab_removed 7; message fast_page 8] w) !! 7 = Some g' /\
             (0 <= g')%N.
Proof.
  intros w.
  apply (table_never_forgets {[7]} [message fast_page 7] 7 0
           [tab_removed 7; message fast_page 8]).
  reflexivity.
Defined.

(** ** Events that do not resume an invocation *)

Lemma step_keeps_others (w : world) (ev : event) (i : nat) (inv : invocation) :
  resumes i ev = false -> invocations w !! i = Some inv ->
  invocations (step w ev) !! i = Some inv.
Proof.
  intros Hres Hinv.
  assert (Happ : forall request tabId,
             invocations (animateBadges request tabId w) !! i = Some inv).
  { intros request tabId. rewrite animateBadges_invocations, lookup_app_l; [exact Hinv |].
    now apply lookup_lt_Some in Hinv. }
  destruct ev as [request tabId | j | j | tabs | t | t]; cbn [step resumes] in *;
    try exact Hinv.
  - apply Happ.
  - apply Nat.eqb_neq in Hres.
    unfold on_timer. destruct (invocations w !! j) as [inv'|]; [| exact Hinv].
    destruct (inv_at inv'); try exact Hinv;
      rewrite ?metric_step_invocations, ?loop_step_invocations; fields;
      now rewrite list_lookup_insert_ne by congruence.
  - apply Nat.eqb_neq in Hres.
    unfold on_tabs_get. destruct (invocations w !! j) as [inv'|]; [| exact Hinv].
    destruct (inv_at inv'); try exact Hinv.
    destruct (negb _); fields; rewrite list_lookup_insert_ne by congruence;
      [exact Hinv | apply Happ].
  - unfold on_tabs_query. now destruct (queries w).
Qed.

Lemma step_acts (w : world) (ev : event) :
  exists new,
    trace (step w ev) = trace w ++ new /\
    forall j e, by_invocation j e ∈ new ->
      j = length (invocations w) \/
      exists inv, invocations w !! j = Some inv /\ resumes j ev = true.
Proof.
  assert (Hnone : exists new, trace w = trace w ++ new /\
            forall j e, by_invocation j e ∈ new ->
              j = length (invocations w) \/
              exists inv, invocations w !! j = Some inv /\ resumes j ev = true).
  { exists []. split; [now rewrite app_nil_r |]. intros j e H. now apply elem_of_nil in H. }
  assert (Hfresh : forall (l : list effect) j e,
             by_invocation j e ∈ map (by_invocation (length (invocations w))) l ->
             j = length (invocations w)).
  { intros l j e H. apply list_elem_of_fmap in H. destruct H as (x & H & _).
    now inversion H. }
  assert (Hstart : forall request tabId, exists l,
             trace (animateBadges request tabId w) =
               trace w ++ map (by_invocation (length (invocations w))) l).
  { intros request tabId. rewrite animateBadges_trace.
    destruct (String.eqb _ _).
    - now exists [table_set tabId (globalAnimationId w);
                  call_badgeOverallPerf (passesAllThresholds request) tabId;
                  call_wait delay].
    - now exists [table_set tabId (globalAnimationId w);
                  call_badgeOverallPerf (passesAllThresholds request) tabId]. }
  destruct ev as [request tabId | i | i | tabs | t | t]; cbn [step]; try exact Hnone.
  - destruct (Hstart request tabId) as [l Hl].
    eexists. split; [exact Hl |]. intros j e H. left. exact (Hfresh _ _ _ H).
  - unfold on_timer. destruct (invocations w !! i) as [inv|] eqn:Hinv; [| exact Hnone].
    assert (Hown : forall (l : list effect) j e,
               by_invocation j e ∈ map (by_invocation i) l ->
               j = length (invocations w) \/
               exists inv', invocations w !! j = Some inv' /\
                            resumes j (timer i) = true).
    { intros l j e H. right. exists inv.
      apply list_elem_of_fmap in H. destruct H as (x & H & _).
      assert (j = i) as -> by now inversion H.
      split; [exact Hinv | cbn; apply Nat.eqb_refl]. }
    destruct (inv_at inv); try exact Hnone.
    + eexists. split; [apply metric_step_trace |].
      destruct (superseded _ _ _); [apply (Hown [_]) | apply (Hown [_; _; _])].
    + eexists. split; [apply metric_step_trace |].
      destruct (superseded _ _ _); [apply (Hown [_]) | apply (Hown [_; _; _])].
    + eexists. split; [apply metric_step_trace |].
      destruct (superseded _ _ _); [apply (Hown [_]) | apply (Hown [_; _; _])].
    + eexists. split; [apply loop_step_trace |].
      destruct (superseded _ _ _); [apply (Hown [_]) | apply (Hown [_; _])].
  - unfold on_tabs_get. destruct (invocations w !! i) as [inv|] eqn:Hinv; [| exact Hnone].
    destruct (inv_at inv); try exact Hnone.
    destruct (negb _); fields; [exact Hnone |].
    destruct (Hstart (inv_request inv) (inv_tabId inv)) as [l Hl].
    eexists. split; [exact Hl |]. intros j e H. left. exact (Hfresh _ _ _ H).
  - unfold on_tabs_query. destruct (queries w); [exact Hnone |]. fields.
    eexists. split; [reflexivity |].
    intros j e H. apply list_elem_of_fmap in H. destruct H as (x & H & _). discriminate.
Qed.

Lemma undisturbed_step (w : world) (ev : event) (i : nat) (inv : invocation) :
  invocations w !! i = Some inv -> resumes i ev = false ->
  effects_of i (trace (step w ev)) = effects_of i (trace w).
Proof.
  intros Hinv Hres.
  destruct (step_acts w ev) as (new & -> & Hnew).
  rewrite effects_of_app, (effects_of_others _ new); [apply app_nil_r |].
  intros i' e Hin E. subst i'.
  destruct (Hnew _ _ Hin) as [Hfresh | (inv' & Hj & Hr)].
  - apply lookup_lt_Some in Hinv. lia.
  - congruence.
Qed.

Lemma undisturbed (evs : list event) (w : world) (i : nat) (inv : invocation) :
  invocations w !! i = Some inv ->
  Forall (fun ev => resumes i ev = false) evs ->
  invocations (run evs w) !! i = Some inv /\
  effects_of i (trace (run evs w)) = effects_of i (trace w).
Proof.
  revert w. induction evs as [|ev evs IH]; intros w Hinv Hall; [now split |].
  inversion Hall as [|? ? Hev Hevs]; subst. rewrite run_cons.
  destruct (IH (step w ev)) as [IH1 IH2]; try assumption.
  - now apply step_keeps_others.
  - split; [exact IH1 |]. rewrite IH2. now apply (undisturbed_step w ev i inv).
Qed.

(** X13: new information cancels an animation that is waiting.  Let an
    invocation be suspended at any of its four waits when a message for
    its tab arrives, the counter being below [2^53].  Whatever happens
    before its timer fires, once it fires the invocation only reads the
    table and returns: it calls no renderer, and no later event makes
    it act again. *)
Theorem newer_message_cancels_a_waiting_run
    (tabs0 : gset Z) (evs : list event) (i : nat) (inv : invocation)
    (request' : request_t) (meanwhile after : list event) :
  let w := run evs (init tabs0) in
  let T := inv_tabId inv in
  invocations w !! i = Some inv ->
  inv_at inv ∈ waits ->
  (globalAnimationId w < 2 ^ 53)%N ->
  Forall (fun ev => resumes i ev = false) meanwhile ->
  let w1 := run meanwhile (animateBadges request' T w) in
  let w2 := step w1 (timer i) in
  effects_of i (trace w2) = effects_of i (trace w) ++ [table_get T] /\
  inv_at <$> invocations w2 !! i = Some returned /\
  queries w2 = queries w1 /\
  effects_of i (trace (run after w2)) = effects_of i (trace w2).
Proof.
  intros w T Hinv Hat Hbound Hquiet w1 w2.
  assert (Hw : consistent w) by (apply consistent_run, consistent_init).
  set (a := inv_animationId inv).
  set (w0 := animateBadges request' T w).
  assert (Hw0 : consistent w0) by now apply consistent_animateBadges.
  assert (Hlt : (a < globalAnimationId w)%N).
  { subst a. pose proof (lookup_lt_Some _ _ _ Hinv) as Hi.
    rewrite (ids_in_order w Hw _ _ Hinv).
    rewrite (counter_counts w Hw) in Hbound |- *.
    rewrite (counted_below i _ (Nat.lt_le_incl _ _ Hi) Hbound).
    rewrite (counted_below _ _ (Nat.le_refl _) Hbound). lia. }
  assert (Hinv0 : invocations w0 !! i = Some inv).
  { subst w0. rewrite animateBadges_invocations, lookup_app_l; [exact Hinv |].
    now apply lookup_lt_Some in Hinv. }
  assert (Heff0 : effects_of i (trace w0) = effects_of i (trace w)).
  { apply (undisturbed_step w (message request' T) i inv Hinv eq_refl). }
  destruct (undisturbed meanwhile w0 i inv Hinv0 Hquiet) as [Hinv1 Heff1].
  change (run meanwhile w0) with w1 in Hinv1, Heff1.
  assert (Hstale : animationsByTabId w1 !! T <> Some a).
  { apply (stale_stays_stale meanwhile w0 T a (globalAnimationId w) Hw0); [| exact Hlt].
    subst w0. rewrite animateBadges_table. apply lookup_insert_eq. }
  destruct (superseded_returns w1 i inv Hinv1 Hat Hstale) as (Htrace & Hq & Hinvs).
  change (on_timer i w1) with w2 in Htrace, Hq, Hinvs. fold T a in Htrace, Hinvs.
  assert (Hret : invocations w2 !! i =
                 Some (Invocation (inv_request inv) T a returned)).
  { rewrite Hinvs. fields. apply list_lookup_insert_eq. now apply lookup_lt_Some in Hinv1. }
  split; [| split; [| split]].
  - rewrite Htrace, effects_of_app, Heff1, Heff0. f_equal.
    apply (effects_of_own i [table_get T]).
  - now rewrite Hret.
  - exact Hq.
  - apply (returned_is_silent after w2 i _ Hret eq_refl).
Qed.

Lemma newer_message_cancels_a_waiting_run_witness :
  let w := run [message slow_page 7; timer 0] (init {[7]}) in
  let w1 := run [tabs_query_reply []; message fast_page 8] (animateBadges fast_page 7 w) in
  effects_of 0 (trace (step w1 (timer 0))) = effects_of 0 (trace w) ++ [table_get 7].
Proof.
  intros w w1.
  destruct (newer_message_cancels_a_waiting_run {[7]} [message slow_page 7; timer 0] 0
              (Invocation slow_page 7 0 at_wait_fid) fast_page
              [tabs_query_reply []; message fast_page 8] [])
    as (H & _).
  - reflexivity.
  - unfold waits. rewrite !elem_of_cons. right. left. reflexivity.
  - reflexivity.
  - repeat constructor.
  - exact H.
Defined.

(** ** The loop, cycle after cycle *)

Lemma registrations_quiet (log : list entry) (a : nat) (effs : list effect) :
  Forall (fun e => registration (by_invocation a e) = None) effs ->
  registrations (log ++ map (by_invocation a) effs) = registrations log.
Proof.
  intros Hq. unfold registrations. rewrite omap_app.
  replace (omap registration (map (by_invocation a) effs)) with (@nil (Z * N));
    [apply app_nil_r |].
  induction Hq as [|e effs He _ IH]; [reflexivity |].
  cbn [map omap list_omap]. cbn [map] in IH. now rewrite He.
Qed.

Lemma cycle_of_current (w : world) (i : nat) (request : request_t) (T : Z) (a : N) :
  current_at w i request T a at_wait_lcp ->
  passesAllThresholds request = "POOR"%string ->
  T ∈ openTabs w ->
  S i = length (invocations w) ->
  let w' := run (one_cycle i) w in
  current_at w' (S i) request T (globalAnimationId w) at_wait_lcp /\
  globalAnimationId w' = Number.increment (globalAnimationId w) /\
  openTabs w' = openTabs w /\
  length (invocations w') = S (S i) /\
  registrations (trace w') = registrations (trace w) ++ [(T, globalAnimationId w)] /\
  inv_at <$> invocations w' !! i = Some returned.
Proof.
  intros H0 Hpoor Hopen Hlen w'. subst w'. unfold one_cycle. rewrite !run_cons.
  change (run [] ?x) with x. cbn [step].
  assert (Hsteps : forall m,
             (at_wait_lcp, "lcp"%string, value (lcp m), at_wait_fid) ∈ metric_steps m /\
             (at_wait_fid, "fid"%string, value (fid m), at_wait_cls) ∈ metric_steps m /\
             (at_wait_cls, "cls"%string, value (cls m), at_wait_loop) ∈ metric_steps m).
  { intros m. unfold metric_steps. rewrite !elem_of_cons. tauto. }
  destruct (Hsteps (metrics request)) as (S1 & S2 & S3).
  destruct (timer_metric_current w i request T a _ _ _ _ H0 S1)
    as (H1 & T1 & _ & I1 & C1 & O1).
  destruct (timer_metric_current _ i request T a _ _ _ _ H1 S2)
    as (H2 & T2 & _ & I2 & C2 & O2).
  destruct (timer_metric_current _ i request T a _ _ _ _ H2 S3)
    as (H3 & T3 & _ & I3 & C3 & O3).
  destruct (timer_loop_current _ i request T a H3) as (H4 & T4 & _ & I4 & C4 & O4).
  destruct H4 as [H4 _].
  set (w4 := on_timer i (on_timer i (on_timer i (on_timer i w)))) in *.
  assert (L4 : length (invocations w4) = S i).
  { rewrite I4, I3, I2, I1, !length_insert. now rewrite Hlen. }
  assert (C : globalAnimationId w4 = globalAnimationId w) by congruence.
  assert (R4 : registrations (trace w4) = registrations (trace w)).
  { rewrite T4, T3, T2, T1. rewrite !registrations_quiet; [reflexivity | ..];
      repeat constructor. }
  rewrite (tabs_get_reenters w4 i request T a H4) by congruence.
  unfold current_at. fields.
  rewrite ?animateBadges_counter, ?animateBadges_table, ?animateBadges_openTabs,
    ?animateBadges_invocations, ?animateBadges_registrations, ?Hpoor, ?C, ?R4.
  cbn [String.eqb Ascii.eqb Bool.eqb].
  split; [split |].
  - rewrite list_lookup_insert_ne by lia. rewrite <- L4. now apply list_lookup_middle.
  - fields. apply lookup_insert_eq.
  - repeat split.
    + congruence.
    + rewrite length_insert, length_app, L4. cbn. lia.
    + rewrite list_lookup_insert_eq; [reflexivity |].
      rewrite length_app, L4. lia.
Qed.

Lemma cycles_of_current (k : nat) (request : request_t) (T : Z) :
  passesAllThresholds request = "POOR"%string ->
  forall (w : world) (i : nat) (a : N),
    current_at w i request T a at_wait_lcp ->
    T ∈ openTabs w ->
    S i = length (invocations w) ->
    globalAnimationId w = (a + 1)%N ->
    (a + N.of_nat k < 2 ^ 53)%N ->
    let w' := run (cycles k i) w in
    current_at w' (i + k) request T (a + N.of_nat k) at_wait_lcp /\
    globalAnimationId w' = (a + N.of_nat k + 1)%N /\
    registrations (trace w') =
      registrations (trace w) ++
        map (fun j => (T, (a + 1 + N.of_nat j)%N)) (seq 0 k).
Proof.
  intros Hpoor. induction k as [|k IH]; intros w i a Hcur Hopen Hlen Hc Hbound w'.
  - subst w'. cbn [cycles run fold_left seq map N.of_nat].
    rewrite Nat.add_0_r, N.add_0_r, app_nil_r.
    split; [exact Hcur | split; [exact Hc | reflexivity]].
  - subst w'. cbn [cycles]. rewrite run_app.
    destruct (cycle_of_current w i request T a Hcur Hpoor Hopen Hlen)
      as (Hcur1 & Hc1 & Ho1 & Hl1 & Hr1 & _).
    set (w1 := run (one_cycle i) w) in *.
    rewrite Hc in Hcur1, Hc1, Hr1.
    rewrite Number_increment_exact in Hc1 by lia.
    destruct (IH w1 (S i) (a + 1)%N Hcur1) as (Hcur' & Hc' & Hr').
    + congruence.
    + now rewrite Hl1.
    + exact Hc1.
    + lia.
    + replace (i + S k)%nat with (S i + k)%nat by lia.
      replace (a + N.of_nat (S k))%N with (a + 1 + N.of_nat k)%N by lia.
      repeat split; try assumption.
      * apply Hcur'.
      * apply Hcur'.
      * rewrite Hr', Hr1, <- app_assoc. f_equal.
        cbn [seq map app]. rewrite <- seq_shift, map_map. f_equal.
        -- f_equal. lia.
        -- apply map_ext. intros j. f_equal. lia.
Qed.

(** X14: the loop takes a new generation at every cycle.  A failing
    request left alone on an open tab never ends by itself: after [k]
    cycles it has registered [k + 1] consecutive generations for its
    tab (the counter staying below [2^53]), the table holds the last of
    them, and the invocation that holds it waits for the next lcp
    frame. *)
Theorem every_cycle_takes_a_generation
    (w : world) (request : request_t) (T : Z) (k : nat) :
  passesAllThresholds request = "POOR"%string ->
  T ∈ openTabs w ->
  let a := globalAnimationId w in
  let i := length (invocations w) in
  (a + N.of_nat k < 2 ^ 53)%N ->
  let w' := run (cycles k i) (animateBadges request T w) in
  animationsByTabId w' !! T = Some (a + N.of_nat k)%N /\
  globalAnimationId w' = (a + N.of_nat k + 1)%N /\
  invocations w' !! (i + k)%nat =
    Some (Invocation request T (a + N.of_nat k)%N at_wait_lcp) /\
  registrations (trace w') =
    registrations (trace w) ++ map (fun j => (T, (a + N.of_nat j)%N)) (seq 0 (S k)).
Proof.
  intros Hpoor Hopen a i Hbound w'.
  destruct (cycles_of_current k request T Hpoor (animateBadges request T w) i a)
    as ([Hinv Htab] & Hc & Hr).
  - now apply animateBadges_current.
  - now rewrite animateBadges_openTabs.
  - rewrite animateBadges_invocations, length_app. cbn. subst i. lia.
  - rewrite animateBadges_counter. apply Number_increment_exact. subst a. lia.
  - exact Hbound.
  - fold w' in Hinv, Htab, Hc, Hr. repeat split; try assumption.
    rewrite Hr, animateBadges_registrations, <- app_assoc. f_equal.
    cbn [seq map app]. rewrite <- seq_shift, map_map. f_equal.
    + f_equal. subst a. lia.
    + apply map_ext. intros j. f_equal. lia.
Qed.

Lemma every_cycle_takes_a_generation_witness :
  let w' := run (cycles 3 0) (animateBadges slow_page 7 (init {[7]})) in
  animationsByTabId w' !! 7 = Some 3%N /\
  registrations (trace w') = [(7, 0%N); (7, 1%N); (7, 2%N); (7, 3%N)].
Proof.
  intros w'.
  destruct (every_cycle_takes_a_generation (init {[7]}) slow_page 7 3 eq_refl)
    as (Htab & _ & _ & Hregs).
  - apply (bool_decide_unpack _). vm_compute. reflexivity.
  - reflexivity.
  - split; [exact Htab | exact Hregs].
Defined.

(** ** The listeners *)

Lemma startsWith_prefix (prefix str : list Z) :
  startsWith str prefix = true <-> exists rest, str = prefix ++ rest.
Proof.
  revert str. induction prefix as [|p prefix IH]; intros str.
  - split; [intros _; now exists str | intros _; now destruct str].
  - destruct str as [|c str]; cbn [startsWith].
    + split; [discriminate | intros [rest H]; discriminate].
    + rewrite andb_true_iff, Z.eqb_eq, IH. split.
      * intros [-> [rest ->]]. now exists rest.
      * intros [rest H]. injection H as -> ->. split; [reflexivity | now exists rest].
Qed.

Lemma onUpdated_flag (tabId : Z) (status : option string) (tab : tab_t) (wk : worker) :
  storage_local (onUpdated tabId status tab wk).1 !! Number_toString tabId =
    Some (background_flag (negb (tab_active tab))).
Proof.
  unfold onUpdated.
  set (flagged := if tab_active tab then _ else _).
  assert (Hflag : storage_local flagged !! Number_toString tabId =
                    Some (background_flag (negb (tab_active tab)))).
  { subst flagged. destruct (tab_active tab); apply lookup_insert_eq. }
  destruct status as [s|]; [| exact Hflag].
  destruct (String.eqb s "complete"); [| exact Hflag].
  destruct (tab_url tab); [| exact Hflag].
  destruct (_ && _); exact Hflag.
Qed.

(** X15: what a tab update does.  The listener always records, under
    the decimal form of the tab id, whether the tab was loaded in the
    background (the negation of [tab.active]), and touches no other
    key and nothing of the sequencer.  It asks for a measurement
    exactly when the update is the ['complete'] one, the tab is active
    and its URL begins with "http"; and it throws exactly when the
    update is the ['complete'] one and the tab has no URL, the flag
    being already written by then. *)
Theorem onUpdated_measures_active_http_tabs
    (tabId : Z) (status : option string) (tab : tab_t) (wk : worker) :
  let wk' := (onUpdated tabId status tab wk).1 in
  let how := (onUpdated tabId status tab wk).2 in
  storage_local wk' !! Number_toString tabId =
    Some (background_flag (negb (tab_active tab))) /\
  (forall key, key <> Number_toString tabId ->
     storage_local wk' !! key = storage_local wk !! key) /\
  sequencer wk' = sequencer wk /\
  ((status = Some "complete"%string /\ tab_active tab = true /\
    exists rest, tab_url tab = Some (code_units_of "http" ++ rest)) ->
   executed wk' = executed wk ++ [tabId]) /\
  (~ (status = Some "complete"%string /\ tab_active tab = true /\
      exists rest, tab_url tab = Some (code_units_of "http" ++ rest)) ->
   executed wk' = executed wk) /\
  (how = threw_TypeError <-> status = Some "complete"%string /\ tab_url tab = None).
Proof.
  intros wk' how.
  set (wanted := status = Some "complete"%string /\ tab_active tab = true /\
                 exists rest, tab_url tab = Some (code_units_of "http" ++ rest)).
  set (flagged := if tab_active tab
                  then storage_set (Number_toString tabId) (background_flag false) wk
                  else storage_set (Number_toString tabId) (background_flag true) wk).
  assert (Hflag : storage_local flagged !! Number_toString tabId =
                    Some (background_flag (negb (tab_active tab))) /\
                  (forall key, key <> Number_toString tabId ->
                     storage_local flagged !! key = storage_local wk !! key) /\
                  sequencer flagged = sequencer wk /\
                  executed flagged = executed wk).
  { subst flagged. destruct (tab_active tab); cbn;
      (split; [apply lookup_insert_eq |]);
      (split; [intros key Hne; now apply lookup_insert_ne | now split]). }
  destruct Hflag as (Hf1 & Hf2 & Hf3 & Hf4).
  assert (Hcases :
    (wanted /\ onUpdated tabId status tab wk = (getWebVitals tabId flagged, completed)) \/
    (~ wanted /\ status = Some "complete"%string /\ tab_url tab = None /\
       onUpdated tabId status tab wk = (flagged, threw_TypeError)) \/
    (~ wanted /\ ~ (status = Some "complete"%string /\ tab_url tab = None) /\
       onUpdated tabId status tab wk = (flagged, completed))).
  { unfold onUpdated. fold flagged. subst wanted.
    destruct status as [s|].
    - destruct (String.eqb_spec s "complete") as [->|Hs].
      + destruct (tab_url tab) as [url|] eqn:Hurl.
        * destruct (startsWith url (code_units_of "http")) eqn:Hp.
          -- destruct (tab_active tab) eqn:Ha; cbn [andb].
             ++ left. split; [| reflexivity]. split; [reflexivity |].
                split; [reflexivity |]. apply startsWith_prefix in Hp.
                destruct Hp as [rest ->]. now exists rest.
             ++ right. right. split; [intros (_ & H & _); discriminate |].
                split; [intros [_ H]; discriminate | reflexivity].
          -- cbn [andb]. right. right. split.
             ++ intros (_ & _ & rest & H).
                assert (Hyes : startsWith url (code_units_of "http") = true)
                  by (apply startsWith_prefix; exists rest; congruence).
                congruence.
             ++ split; [intros [_ H]; discriminate | reflexivity].
        * right. left. split; [intros (_ & _ & rest & H); discriminate |].
          now repeat split.
      + right. right. split; [intros (H & _); congruence |].
        split; [intros [H _]; congruence | reflexivity].
    - right. right. split; [intros (H & _); discriminate |].
      split; [intros [H _]; discriminate | reflexivity]. }
  subst wk' how.
  destruct Hcases as [[Hw ->] | [(Hn & Hs & Hu & ->) | (Hn & Hnt & ->)]];
    cbn [fst snd getWebVitals storage_local sequencer executed];
    (split; [exact Hf1 |]); (split; [exact Hf2 |]); (split; [exact Hf3 |]).
  - split; [intros _; now rewrite Hf4 |]. split; [intros Hno; contradiction |].
    split; [discriminate |].
    intros [_ Hnone]. destruct Hw as (_ & _ & rest & Hr). congruence.
  - split; [intros Hy; contradiction |]. split; [intros _; exact Hf4 |].
    split; [intros _; now split | reflexivity].
  - split; [intros Hy; contradiction |]. split; [intros _; exact Hf4 |].
    split; [discriminate | intros Hy; contradiction].
Qed.

Lemma onUpdated_measures_active_http_tabs_witness :
  let page := Tab 7 true (Some (code_units_of "https://example.com/")) in
  executed (onUpdated 7 (Some "complete"%string) page (start {[7]})).1 = [7] /\
  (onUpdated 7 (Some "complete"%string) (Tab 7 true None) (start {[7]})).2 =
    threw_TypeError /\
  storage_local (onUpdated 7 None (Tab 7 false None) (start {[7]})).1 !! "7"%string =
    Some (background_flag true).
Proof.
  intros page.
  destruct (onUpdated_measures_active_http_tabs 7 (Some "complete"%string) page (start {[7]}))
    as (_ & _ & _ & Hyes & _).
  destruct (onUpdated_measures_active_http_tabs 7 (Some "complete"%string)
              (Tab 7 true None) (start {[7]})) as (_ & _ & _ & _ & _ & Hthrow).
  destruct (onUpdated_measures_active_http_tabs 7 None (Tab 7 false None) (start {[7]}))
    as (Hflag & _).
  split; [| split].
  - apply Hyes. split; [reflexivity |]. split; [reflexivity |].
    exists (code_units_of "s://example.com/"). reflexivity.
  - apply Hthrow. split; reflexivity.
  - exact Hflag.
Defined.

Lemma onMessage_without_verdict (msg : message_t) (tab : tab_t) (wk : worker) :
  msg_passesAllThresholds msg = None -> onMessage msg tab wk = wk.
Proof. intros H. unfold onMessage. now rewrite H. Qed.

Lemma onMessage_with_verdict (msg : message_t) (tab : tab_t) (wk : worker)
    (verdict : string) :
  msg_passesAllThresholds msg = Some verdict ->
  let wk' := onMessage msg tab wk in
  sequencer wk' =
    animateBadges (Request verdict (msg_metrics msg)) (tab_id tab) (sequencer wk) /\
  storage_local wk' =
    match truthy_url (tab_url tab) with
    | Some url => <[hashCode url := page_metrics (msg_metrics msg)]> (storage_local wk)
    | None => storage_local wk
    end /\
  executed wk' = executed wk /\
  responded wk' = responded wk ++ [tab_id tab].
Proof.
  intros H wk'. subst wk'. unfold onMessage. rewrite H.
  now destruct (truthy_url (tab_url tab)).
Qed.

Lemma onMessages_snoc (msgs : list (message_t * tab_t)) (mt : message_t * tab_t)
    (wk : worker) :
  onMessages (msgs ++ [mt]) wk = onMessage mt.1 mt.2 (onMessages msgs wk).
Proof. unfold onMessages. now rewrite fold_left_app. Qed.

(** X16: one run and one response for each message with a verdict, and
    nothing for the others.  After any list of messages, the responses
    sent are the tab ids of the messages that carried a
    [passesAllThresholds], in their order; as many invocations of
    [animateBadges] were entered; no measurement was asked for; when
    none of the messages carried one, the worker is as it was; and the
    generation counter has grown by their number, as far as that stays
    within [2^53]. *)
Theorem one_run_and_one_response_per_verdict
    (msgs : list (message_t * tab_t)) (wk : worker) :
  let wk' := onMessages msgs wk in
  responded wk' = responded wk ++ map (fun mt => tab_id mt.2) (accepted msgs) /\
  length (invocations (sequencer wk')) =
    (length (invocations (sequencer wk)) + length (accepted msgs))%nat /\
  executed wk' = executed wk /\
  (accepted msgs = [] -> wk' = wk) /\
  ((globalAnimationId (sequencer wk) + N.of_nat (length (accepted msgs)) <= 2 ^ 53)%N ->
   globalAnimationId (sequencer wk') =
     (globalAnimationId (sequencer wk) + N.of_nat (length (accepted msgs)))%N).
Proof.
  intros wk'. subst wk'.
  induction msgs as [|[msg tab] msgs IH] using rev_ind.
  - cbn. rewrite app_nil_r, N.add_0_r, Nat.add_0_r. now repeat split.
  - destruct IH as (IHr & IHl & IHe & IHn & IHc).
    rewrite onMessages_snoc. unfold accepted in *. rewrite filter_app.
    cbn [fst snd].
    destruct (msg_passesAllThresholds msg) as [verdict|] eqn:Hv.
    + rewrite filter_cons_True by (cbn; rewrite Hv; eauto).
      rewrite filter_nil, map_app, !length_app. cbn [map length fst snd].
      destruct (onMessage_with_verdict msg tab (onMessages msgs wk) verdict Hv)
        as (Hs & _ & He & Hr).
      rewrite Hr, Hs, animateBadges_counter, animateBadges_invocations, length_app,
        IHr, IHl, He, IHe, <- app_assoc.
      cbn [length]. repeat split; try lia.
      * intros Habs. apply app_eq_nil in Habs as [_ Habs]. discriminate.
      * intros Hbound. rewrite IHc by lia.
        rewrite Number_increment_exact by lia. lia.
    + rewrite filter_cons_False by (cbn; rewrite Hv; intros [x Hx]; discriminate).
      rewrite filter_nil, app_nil_r.
      rewrite (onMessage_without_verdict msg tab _ Hv).
      now repeat split.
Qed.

Lemma one_run_and_one_response_per_verdict_witness :
  let silent := (Message None (metrics fast_page), Tab 8 true None) in
  onMessages [silent; silent] (start {[7; 8]}) = start {[7; 8]}.
Proof.
  intros silent.
  apply (one_run_and_one_response_per_verdict [silent; silent] (start {[7; 8]})).
  reflexivity.
Defined.

(** X17: what the popup will find.  After any list of messages, the
    entry under a key holds the metrics of the last message that
    carried a verdict and came from a page whose non-empty URL hashes
    to that key, whichever tab sent it; when no message did, the entry
    is what it was before. *)
Theorem storage_holds_the_last_measurement
    (msgs : list (message_t * tab_t)) (wk : worker) (key : string) :
  storage_local (onMessages msgs wk) !! key =
    match last_under key msgs with
    | Some m => Some (page_metrics m)
    | None => storage_local wk !! key
    end.
Proof.
  unfold last_under.
  induction msgs as [|[msg tab] msgs IH] using rev_ind; [reflexivity |].
  rewrite onMessages_snoc, omap_app. cbn [fst snd omap list_omap].
  unfold leaves_under. cbn [fst snd].
  destruct (msg_passesAllThresholds msg) as [verdict|] eqn:Hv.
  - destruct (onMessage_with_verdict msg tab (onMessages msgs wk) verdict Hv)
      as (_ & Hst & _). rewrite Hst.
    destruct (truthy_url (tab_url tab)) as [url|].
    + destruct (String.eqb_spec (hashCode url) key) as [->|Hne].
      * rewrite lookup_insert_eq. cbn. now rewrite last_snoc.
      * rewrite lookup_insert_ne by exact Hne. cbn. now rewrite app_nil_r.
    + cbn. now rewrite app_nil_r.
  - rewrite (onMessage_without_verdict msg tab _ Hv). cbn. now rewrite app_nil_r.
Qed.

(** X18: tab flags and page metrics share one key space.  The flag of a
    tab is stored under the decimal form of its id, the metrics of a
    page under the decimal form of the hash of its URL, both in
    [chrome.storage.local].  When the two coincide, an update of the
    tab replaces the stored metrics by a flag, and a message from the
    page replaces the flag by metrics. *)
Theorem tab_flag_and_metrics_collide
    (msg : message_t) (verdict : string) (page : tab_t) (url : list Z)
    (tabId : Z) (status : option string) (tab : tab_t) (wk : worker) :
  msg_passesAllThresholds msg = Some verdict ->
  truthy_url (tab_url page) = Some url ->
  hashCode url = Number_toString tabId ->
  storage_local (onUpdated tabId status tab (onMessage msg page wk)).1 !! hashCode url =
    Some (background_flag (negb (tab_active tab))) /\
  storage_local (onMessage msg page (onUpdated tabId status tab wk).1) !! Number_toString tabId =
    Some (page_metrics (msg_metrics msg)).
Proof.
  intros Hv Hurl Hkey. split.
  - rewrite Hkey.
    apply (onUpdated_flag tabId status tab (onMessage msg page wk)).
  - destruct (onMessage_with_verdict msg page (onUpdated tabId status tab wk).1 verdict Hv)
      as (_ & Hst & _).
    rewrite Hst, Hurl, Hkey. apply lookup_insert_eq.
Qed.

Lemma tab_flag_and_metrics_collide_witness :
  let url := code_units_of "https://example.com/aqzttzcy" in
  let page := Tab 12 true (Some url) in
  let msg := Message (Some "GOOD"%string) (metrics fast_page) in
  hashCode url = "7"%string /\
  storage_local (onUpdated 7 None (Tab 7 false None) (onMessage msg page (start {[7; 12]}))).1
    !! hashCode url = Some (background_flag true).
Proof.
  intros url page msg.
  assert (Hkey : hashCode url = Number_toString 7) by (vm_compute; reflexivity).
  split; [exact Hkey |].
  destruct (tab_flag_and_metrics_collide msg "GOOD" page url 7 None (Tab 7 false None)
              (start {[7; 12]}) eq_refl eq_refl Hkey) as [Hflag _].
  exact Hflag.
Defined.

(** ** The options page *)

Lemma sync_lookup_saved (pg : Options.page) (sync : gmap string bool) :
  let sync' := Options.saveOptions pg sync in
  sync' !! "enableOverlay"%string = Some (Options.overlay_checked pg) /\
  sync' !! "debug"%string = Some (Options.consoleLogging_checked pg) /\
  sync' !! "userTiming"%string = Some (Options.userTiming_checked pg) /\
  sync' !! "preferPhoneField"%string = Some (Options.preferPhoneField_checked pg).
Proof.
  unfold Options.saveOptions, Options.sync_set. cbn [fold_left fst snd].
  repeat split;
    repeat first [ rewrite lookup_insert_eq; reflexivity
                 | rewrite lookup_insert_ne by discriminate ].
Qed.

(** X19: what is saved is what is restored.  [saveOptions] writes the
    state of the four checkboxes under the four option keys and leaves
    every other key of [chrome.storage.sync] as it was; [restoreOptions]
    on the storage so written checks exactly the boxes that were
    checked when saving, on whatever page it runs, and does not touch
    the status line. *)
Theorem options_saved_are_restored
    (pg pg' : Options.page) (sync : gmap string bool) :
  let sync' := Options.saveOptions pg sync in
  Options.restoreOptions pg' sync' =
    Options.Page (Options.overlay_checked pg) (Options.consoleLogging_checked pg)
                 (Options.userTiming_checked pg) (Options.preferPhoneField_checked pg)
                 (Options.status_textContent pg') /\
  (forall key, key ∉ option_keys -> sync' !! key = sync !! key).
Proof.
  intros sync'. split.
  - destruct (sync_lookup_saved pg sync) as (H1 & H2 & H3 & H4). fold sync' in H1, H2, H3, H4.
    unfold Options.restoreOptions, Options.sync_get. cbn [map fst snd].
    rewrite H1, H2, H3, H4. reflexivity.
  - intros key Hkey. subst sync'.
    unfold Options.saveOptions, Options.sync_set. cbn [fold_left fst snd].
    unfold option_keys in Hkey. rewrite !not_elem_of_cons in Hkey.
    destruct Hkey as (K1 & K2 & K3 & K4 & _).
    now rewrite !lookup_insert_ne by congruence.
Qed.

Lemma options_saved_are_restored_witness :
  let pg := Options.Page true false true false "" in
  let sync' := Options.saveOptions pg {[ "theme"%string := true ]} in
  Options.restoreOptions (Options.Page false false false false "Options saved.") sync' =
    Options.Page true false true false "Options saved." /\
  sync' !! "theme"%string = Some true.
Proof.
  intros pg sync'.
  destruct (options_saved_are_restored pg
              (Options.Page false false false false "Options saved.")
              {[ "theme"%string := true ]}) as [Hback Hrest].
  split; [exact Hback |].
  fold sync' in Hrest. rewrite Hrest; [reflexivity |].
  unfold option_keys. rewrite !not_elem_of_cons. repeat split; try discriminate.
  apply not_elem_of_nil.
Defined.


